(** * imagist: asynchronous, de-duplicated image variant generation

    A shallow embedding of the Go package [imagist] (validator [Add],
    dispatcher [listen], transform engine [execute] / [imageProcess]) and
    the properties of its specification that can be settled on the code.

    Conventions of the embedding.
    - Go's [int] is a 64-bit two's-complement integer: values are in [Z] and
      every [+] and [-] of the source goes through [GoInt.wrap].
    - Pointers to [WatermarkPosition] are locations of a heap
      ([gmap loc WatermarkPosition]); a [FormatDimensions] value is copied
      when passed around but the location it holds is shared.
    - The collaborators outside the package (file system, asset box, codec
      registry, the [imaging] library's float arithmetic) are the fields of
      one record [Externals]; every statement quantifies over it. *)

From Stdlib Require Import ZArith Lia.
From stdpp Require Import base numbers strings list gmap sets.

Local Open Scope Z_scope.

(** ** Go's machine integers *)

Module GoInt.

Definition bits : Z := 64.
Definition modulus : Z := 2 ^ bits.
Definition min_int : Z := - 2 ^ (bits - 1).
Definition max_int : Z := 2 ^ (bits - 1) - 1.

(** Two's-complement wrap-around of a mathematical integer. *)
Definition wrap (z : Z) : Z := (z - min_int) mod modulus + min_int.

Definition in_range (z : Z) : Prop := min_int <= z <= max_int.

Definition add (a b : Z) : Z := wrap (a + b).
Definition sub (a b : Z) : Z := wrap (a - b).
(** Go's [/] truncates toward zero. *)
Definition quot (a b : Z) : Z := wrap (a ÷ b).

End GoInt.

(** ** Package [image]: points, rectangles, header configuration *)

Module image.

Record Point := mkPoint { X : Z; Y : Z }.

Record Rectangle := mkRect { Min : Point; Max : Point }.

Definition ZP : Point := mkPoint 0 0.
Definition ZR : Rectangle := mkRect ZP ZP.

(** [Rect(x0, y0, x1, y1)]: the corners are swapped where needed so
    that the result is well formed. *)
Definition Rect (x0 y0 x1 y1 : Z) : Rectangle :=
  let '(x0, x1) := if bool_decide (x0 > x1) then (x1, x0) else (x0, x1) in
  let '(y0, y1) := if bool_decide (y0 > y1) then (y1, y0) else (y0, y1) in
  mkRect (mkPoint x0 y0) (mkPoint x1 y1).

Definition Dx (r : Rectangle) : Z := GoInt.sub (X (Max r)) (X (Min r)).
Definition Dy (r : Rectangle) : Z := GoInt.sub (Y (Max r)) (Y (Min r)).

(** [image.Config] without its colour model, which the package never
    reads. *)
Record Config := mkConfig { Width : Z; Height : Z }.

End image.

(** ** Package [imaging], symbolically

    Pixels are not computed: an image is the tree of library calls that
    produced it.  What the package observes of an image is its bounds. *)

Module imaging.

Record NRGBA := mkNRGBA { R : Z; G : Z; B : Z; A : Z }.

Inductive Anchor := Center | TopLeft | Top | TopRight | Left | Right
                  | BottomLeft | Bottom | BottomRight.

Inductive ResampleFilter := Lanczos | Other.

Inductive Format := JPEG | PNG | GIF | TIFF | BMP.

(** Every call site of the package passes opacity [1.0]; the argument
    is not represented. *)
Inductive Image :=
| Decoded (bounds : image.Rectangle) (src : string)
| Fit (img : Image) (width height : Z) (filter : ResampleFilter)
| Fill (img : Image) (width height : Z) (anchor : Anchor)
       (filter : ResampleFilter)
| New (width height : Z) (fillColor : NRGBA)
| Overlay (background img : Image) (pos : image.Point)
| OverlayCenter (background img : Image).

(** Results of the library are fresh [*image.NRGBA] values allocated as
    [image.Rect(0, 0, w, h)]. *)
Definition box (w h : Z) : image.Rectangle := image.Rect 0 0 w h.

Definition empty (r : image.Rectangle) : bool :=
  bool_decide (image.Dx r <= 0) || bool_decide (image.Dy r <= 0).

Section Bounds.
(** When the source does not fit the box, [Fit] computes the scaled
    size in [float64] and hands it to [Resize]; the embedding leaves the
    resulting rectangle uninterpreted: [fit_scaled srcW srcH maxW maxH]. *)
Variable fit_scaled : Z -> Z -> Z -> Z -> image.Rectangle.

Fixpoint Bounds (i : Image) : image.Rectangle :=
  match i with
  | Decoded r _ => r
  | Fit img w h _ =>
      if bool_decide (w <= 0) || bool_decide (h <= 0) then image.ZR
      else
        let b := Bounds img in
        if empty b then image.ZR
        else if bool_decide (image.Dx b <= w) && bool_decide (image.Dy b <= h)
             then box (image.Dx b) (image.Dy b)
             else fit_scaled (image.Dx b) (image.Dy b) w h
  | Fill img w h _ _ =>
      if bool_decide (w <= 0) || bool_decide (h <= 0) then image.ZR
      else if empty (Bounds img) then image.ZR
           else box w h
  | New w h _ =>
      if bool_decide (w <= 0) || bool_decide (h <= 0) then image.ZR
      else box w h
  | Overlay bg _ _ | OverlayCenter bg _ =>
      let b := Bounds bg in box (image.Dx b) (image.Dy b)
  end.
End Bounds.

End imaging.


(** ** Go values shared by the package *)

(** Result of a call that returns [(value, error)]. *)
Inductive res (A : Type) :=
| Ok (a : A)
| Err (e : string).
Arguments Ok {A} a.
Arguments Err {A} e.

(** Argument of a [fmt.Errorf] verb. *)
Inductive Arg :=
| ArgS (s : string)
| ArgD (d : Z).

(** The [error] values the package builds or passes on. *)
Inductive error :=
| Errorf (format : string) (args : list Arg)
| Foreign (e : string)
| Wrap (cause : error) (message : string).

(** Address of a [WatermarkPosition] allocated by the caller. *)
Definition loc := positive.

(** An open asset ([*os.File]); a nil pointer is [None] at its uses. *)
Inductive File :=
| Handle (name : string).

(** ** Package [imagist] *)

Module imagist.

Definition TypeImageJPG : string := "jpg".
Definition TypeImageJPEG : string := "jpeg".
Definition TypeImagePNG : string := "png".

(** Anchor points for X,Y: [Left = iota], then [Right], [Top], [Bottom],
    [Center]. *)
Definition Left : Z := 0.
Definition Right : Z := 1.
Definition Top : Z := 2.
Definition Bottom : Z := 3.
Definition Center : Z := 4.

Record WatermarkPosition := mkWatermarkPosition {
  Horizontal : Z;
  Vertical : Z;
  OffsetX : Z;
  OffsetY : Z
}.

(** The exported positions; in the source each is a pointer to one shared
    value. *)
Definition TopLeft : WatermarkPosition := mkWatermarkPosition Left Top 0 0.
Definition TopCenter : WatermarkPosition := mkWatermarkPosition Center Top 0 0.
Definition TopRight : WatermarkPosition := mkWatermarkPosition Right Top 0 0.
Definition CenterRight : WatermarkPosition :=
  mkWatermarkPosition Right Center 0 0.
Definition BottomRight : WatermarkPosition :=
  mkWatermarkPosition Right Bottom 0 0.
Definition BottomCenter : WatermarkPosition :=
  mkWatermarkPosition Center Bottom 0 0.
Definition BottomLeft : WatermarkPosition :=
  mkWatermarkPosition Left Bottom 0 0.
Definition CenterLeft : WatermarkPosition :=
  mkWatermarkPosition Left Center 0 0.

Definition presets : list WatermarkPosition :=
  [TopLeft; TopCenter; TopRight; CenterRight; BottomRight; BottomCenter;
   BottomLeft; CenterLeft].

Record FormatDimensions := mkFormatDimensions {
  Name : string;
  Width : Z;
  Height : Z;
  Backdrop : bool;
  Watermark : option loc
}.

Record ImageDimensions := mkImageDimensions {
  MinWidth : Z;
  MinHeight : Z;
  Formats : list FormatDimensions
}.

(** [Config] is a pointer to a copy made by [Add] and [Dimensions] a
    pointer to the caller's value; the package writes through neither, so
    both are held by value.  The only aliased state the package writes is
    behind [Watermark]. *)
Record Job := mkJob {
  FileDiskPath : string;
  Config : image.Config;
  Dimensions : ImageDimensions
}.

(** Everything the package reaches outside of itself.  The three [util]
    constants belong to a sibling package whose source is not part of this
    development; they are taken as given.  [assetBox_Open] is the method
    of the package variable [_assetBox], taken to be set; a failing call
    returns a nil file together with its error. *)
Record Externals := mkExternals {
  NoLimit : Z;
  EnvironmentDEV : string;
  EnvironmentPROD : string;
  filetype_IsImage : list Byte.byte -> bool;
  image_DecodeConfig : list Byte.byte -> res (image.Config * string);
  imaging_Open : string -> res imaging.Image;
  assetBox_Open : string -> res File;
  image_Decode : File -> res imaging.Image;
  fit_scaled : Z -> Z -> Z -> Z -> image.Rectangle;
  imaging_FormatFromFilename : string -> res imaging.Format;
  os_Create : string -> res unit;
  imaging_Encode : string -> imaging.Image -> imaging.Format -> option string
}.

(** The package-level variables set by [SetEnv], [SetBackdropImage] and
    [SetWatermarkImage]. *)
Record Globals := mkGlobals {
  _env : string;
  _diskPathWatermark : string;
  _diskPathBackdrop : string
}.

(** [init]: the three [image.RegisterFormat(name, magic, ...)] calls, in
    order. *)
Definition init : list (string * string) :=
  [("jpeg", "jpeg"); ("png", "png"); ("gif", "gif")].

(** [SetEnv] *)
Definition SetEnv (X : Externals) (G : Globals) (env : string) : Globals :=
  if bool_decide (env = EnvironmentDEV X) || bool_decide (env = EnvironmentPROD X)
  then mkGlobals env (_diskPathWatermark G) (_diskPathBackdrop G)
  else G.

Definition SetBackdropImage (G : Globals) (path : string) : Globals :=
  mkGlobals (_env G) (_diskPathWatermark G) path.

Definition SetWatermarkImage (G : Globals) (path : string) : Globals :=
  mkGlobals (_env G) path (_diskPathBackdrop G).

(** The package variables as the [var] block initialises them. *)
Definition startup (X : Externals) : Globals :=
  mkGlobals (EnvironmentDEV X) EmptyString EmptyString.

(** A call of one of the three exported setters. *)
Inductive Setter :=
| CallSetEnv (env : string)
| CallSetBackdropImage (path : string)
| CallSetWatermarkImage (path : string).

Definition call (X : Externals) (G : Globals) (c : Setter) : Globals :=
  match c with
  | CallSetEnv env => SetEnv X G env
  | CallSetBackdropImage path => SetBackdropImage G path
  | CallSetWatermarkImage path => SetWatermarkImage G path
  end.

(** What a run leaves on disk. *)
Inductive Effect :=
| Created (path : string)
| Encoded (path : string) (img : imaging.Image) (format : imaging.Format).

(** The file an effect touches. *)
Definition effectPath (e : Effect) : string :=
  match e with
  | Created path => path
  | Encoded path _ _ => path
  end.

(** How a call ends: it returns its [error] (nil is [None]) or it panics
    on a dangling location, which Go's memory safety rules out. *)
Inductive Outcome :=
| Return (err : option error)
| Panic.

Record Result := mkResult {
  ret : Outcome;
  heap : gmap loc WatermarkPosition;
  disk : list Effect
}.

Section Engine.

Variable X : Externals.
Variable G : Globals.

(** *** Validator *)

Definition DefaultDimensions : ImageDimensions :=
  mkImageDimensions (NoLimit X) (NoLimit X) [].

(** [Add]: [inr job] stands for the send [i.jobs <- job] followed by
    [return nil]; [inl e] for [return e] with nothing sent. *)
Definition Add (buf : list Byte.byte) (fileDiskPath : string)
    (dimensions : option ImageDimensions) (validate : bool) : error + Job :=
  if negb (filetype_IsImage X buf) then
    inl (Errorf "image type invalid" [])
  else
    let dimensions := default DefaultDimensions dimensions in
    match image_DecodeConfig X buf with
    | Err e => inl (Foreign e)
    | Ok (config, imgType) =>
        if bool_decide (imgType = TypeImageJPG)
           || bool_decide (imgType = TypeImageJPEG)
           || bool_decide (imgType = TypeImagePNG)
        then
          if validate
             && bool_decide (MinWidth dimensions ≠ NoLimit X)
             && bool_decide (image.Width config < MinWidth dimensions)
          then inl (Errorf "image width less than %dpx"
                           [ArgD (MinWidth dimensions)])
          else if validate
                  && bool_decide (MinHeight dimensions ≠ NoLimit X)
                  && bool_decide (image.Height config < MinHeight dimensions)
          then inl (Errorf "image height less than %dpx"
                           [ArgD (MinHeight dimensions)])
          else inr (mkJob fileDiskPath config dimensions)
        else inl (Errorf "image type %s invalid" [ArgS imgType])
    end.

(** *** Transform engine *)

(** The fallback colour of the backdrop, [color.NRGBA{0, 29, 56, 0}]. *)
Definition fallbackColor : imaging.NRGBA := imaging.mkNRGBA 0 29 56 0.

(** [image.Decode] on a possibly nil [*os.File]: reading from a nil file
    fails, no registered format is recognised and an error comes back. *)
Definition decodeFile (staticAsset : option File) : res imaging.Image :=
  match staticAsset with
  | None => Err "image: unknown format"
  | Some f => image_Decode X f
  end.

(** Lines 270-282: the pair [(back, err)] that reaches the test of line
    284.  Outside of DEV the assignment of line 278 is overwritten by the
    unconditional [image.Decode] of line 281. *)
Definition openBackdrop : res imaging.Image :=
  if bool_decide (_env G = EnvironmentDEV X) then
    imaging_Open X ("../assets/" +:+ _diskPathBackdrop G)
  else
    match assetBox_Open X (_diskPathBackdrop G) with
    | Err _ => decodeFile None
    | Ok staticAsset => decodeFile (Some staticAsset)
    end.

(** Lines 264-297: resize, with or without a backdrop. *)
Definition compose (img : imaging.Image) (newWidth newHeight : Z)
    (landscape : bool) (format : FormatDimensions) : imaging.Image :=
  if Backdrop format && negb landscape then
    let img := imaging.Fit img newWidth newHeight imaging.Lanczos in
    let back :=
      match openBackdrop with
      | Err _ => imaging.New (Width format) (Height format) fallbackColor
      | Ok back => imaging.Fill back (Width format) (Height format)
                                imaging.Center imaging.Lanczos
      end in
    imaging.OverlayCenter back img
  else
    imaging.Fill img newWidth newHeight imaging.Center imaging.Lanczos.

(** Lines 323-335: the horizontal switch.  Returns [watermarkPos.X] and
    the value left in [format.Watermark.Horizontal]. *)
Definition switchHorizontal (bgBounds : image.Rectangle) (bgW watermarkW : Z)
    (wp : WatermarkPosition) : Z * Z :=
  if bool_decide (Horizontal wp = Left) then
    (GoInt.add 0 (OffsetX wp), Horizontal wp)
  else if bool_decide (Horizontal wp = Right) then
    let RightX :=
      GoInt.sub (GoInt.add (image.X (image.Min bgBounds)) bgW) watermarkW in
    (GoInt.sub RightX (OffsetX wp), Horizontal wp)
  else if bool_decide (Horizontal wp = Center) then
    let CenterX :=
      GoInt.add (image.X (image.Min bgBounds)) (GoInt.quot bgW 2) in
    (GoInt.add (GoInt.sub CenterX (GoInt.quot watermarkW 2)) (OffsetX wp),
     Horizontal wp)
  else
    (GoInt.add 0 (OffsetX wp), Left).

(** Lines 337-349: the vertical switch. *)
Definition switchVertical (bgBounds : image.Rectangle) (bgH watermarkH : Z)
    (wp : WatermarkPosition) : Z * Z :=
  if bool_decide (Vertical wp = Top) then
    (GoInt.add 0 (OffsetY wp), Vertical wp)
  else if bool_decide (Vertical wp = Bottom) then
    let BottomY :=
      GoInt.sub (GoInt.add (image.Y (image.Min bgBounds)) bgH) watermarkH in
    (GoInt.sub BottomY (OffsetY wp), Vertical wp)
  else if bool_decide (Vertical wp = Center) then
    let CenterY :=
      GoInt.add (image.Y (image.Min bgBounds)) (GoInt.quot bgH 2) in
    (GoInt.add (GoInt.sub CenterY (GoInt.quot watermarkH 2)) (OffsetY wp),
     Vertical wp)
  else
    (GoInt.add 0 (OffsetY wp), Top).

(** Lines 313-349: the placement point and the [WatermarkPosition] left
    behind the pointer. *)
Definition placeWatermark (bgBounds watermarkBounds : image.Rectangle)
    (wp : WatermarkPosition) : image.Point * WatermarkPosition :=
  let bgW := image.Dx bgBounds in
  let bgH := image.Dy bgBounds in
  let watermarkW := image.Dx watermarkBounds in
  let watermarkH := image.Dy watermarkBounds in
  let '(x, horizontal) := switchHorizontal bgBounds bgW watermarkW wp in
  let '(y, vertical) := switchVertical bgBounds bgH watermarkH wp in
  (image.mkPoint x y,
   mkWatermarkPosition horizontal vertical (OffsetX wp) (OffsetY wp)).

(** Lines 300-311: the pair [(watermark, err)] that reaches the test of
    line 312, or the early return of line 307. *)
Definition openWatermark (format : FormatDimensions)
    : error + res imaging.Image :=
  if bool_decide (_env G = EnvironmentDEV X) then
    inr (imaging_Open X
           ("../assets/" +:+ _diskPathWatermark G +:+ ":" +:+ Name format))
  else
    match assetBox_Open X (_diskPathWatermark G +:+ ":" +:+ Name format) with
    | Err e => inl (Wrap (Foreign e) "watermark not found")
    | Ok staticAsset => inr (decodeFile (Some staticAsset))
    end.

(** Lines 355-368: pick the codec, create the file, encode. *)
Definition encode (imgDiskPath : string) (img : imaging.Image)
    (format : FormatDimensions) : Outcome * list Effect :=
  match imaging_FormatFromFilename X imgDiskPath with
  | Err e => (Return (Some (Wrap (Foreign e) "image get format error")), [])
  | Ok imagingFormat =>
      let newDiskPath := imgDiskPath +:+ ":" +:+ Name format in
      match os_Create X newDiskPath with
      | Err e =>
          (Return (Some (Wrap (Foreign e) "image get format error")), [])
      | Ok _ =>
          match imaging_Encode X newDiskPath img imagingFormat with
          | Some e => (Return (Some (Foreign e)), [Created newDiskPath])
          | None =>
              (Return None,
               [Created newDiskPath; Encoded newDiskPath img imagingFormat])
          end
      end
  end.

(** Lines 299-368: watermark overlay and encoding of the composed
    image. *)
Definition overlayAndEncode (h : gmap loc WatermarkPosition)
    (imgDiskPath : string) (img : imaging.Image) (format : FormatDimensions)
    : Result :=
  match Watermark format with
  | None =>
      let '(o, d) := encode imgDiskPath img format in mkResult o h d
  | Some p =>
      match openWatermark format with
      | inl e => mkResult (Return (Some e)) h []
      | inr (Err _) =>
          let '(o, d) := encode imgDiskPath img format in mkResult o h d
      | inr (Ok watermark) =>
          match h !! p with
          | None => mkResult Panic h []
          | Some wp =>
              let bgBounds := imaging.Bounds (fit_scaled X) img in
              let watermarkBounds :=
                imaging.Bounds (fit_scaled X) watermark in
              let '(watermarkPos, wp') :=
                placeWatermark bgBounds watermarkBounds wp in
              let img := imaging.Overlay img watermark watermarkPos in
              let '(o, d) := encode imgDiskPath img format in
              mkResult o (<[p := wp']> h) d
          end
      end
  end.

Definition imageProcess (h : gmap loc WatermarkPosition)
    (imgDiskPath : string) (newWidth newHeight : Z) (landscape : bool)
    (format : FormatDimensions) : Result :=
  match imaging_Open X imgDiskPath with
  | Err e => mkResult (Return (Some (Wrap (Foreign e) "image open error"))) h []
  | Ok img =>
      overlayAndEncode h imgDiskPath
        (compose img newWidth newHeight landscape format) format
  end.

(** Line 230: the entries the loop skips. *)
Definition skipped (format : FormatDimensions) : bool :=
  bool_decide (Name format = EmptyString)
  || bool_decide (Width format <= 0)
  || bool_decide (Height format <= 0).

(** Lines 234-243: the size handed to [imageProcess].  The second test
    compares the original height with itself, as the source does. *)
Definition targetSize (config : image.Config) (format : FormatDimensions)
    : Z * Z :=
  let newWidth :=
    if bool_decide (image.Width config < Width format)
    then image.Width config else Width format in
  let newHeight :=
    if bool_decide (image.Height config < image.Height config)
    then image.Height config else Height format in
  (newWidth, newHeight).

(** Line 245. *)
Definition isLandscape (config : image.Config) : bool :=
  bool_decide (image.Height config < image.Width config).

(** One pass of the loop body, lines 230-247. *)
Definition iteration (j : Job) (h : gmap loc WatermarkPosition)
    (format : FormatDimensions) : Result :=
  if skipped format then mkResult (Return None) h []
  else
    let '(newWidth, newHeight) := targetSize (Config j) format in
    imageProcess h (FileDiskPath j) newWidth newHeight
                 (isLandscape (Config j)) format.

(** The [for ... range] of [execute]: the error of each pass is dropped;
    the boolean tells whether the loop ran to its end. *)
Fixpoint rangeFormats (j : Job) (h : gmap loc WatermarkPosition)
    (formats : list FormatDimensions)
    : gmap loc WatermarkPosition * list Effect * bool :=
  match formats with
  | [] => (h, [], true)
  | format :: rest =>
      let r := iteration j h format in
      match ret r with
      | Panic => (heap r, disk r, false)
      | Return _ =>
          let '(h', d, completed) := rangeFormats j (heap r) rest in
          (h', disk r ++ d, completed)
      end
  end.

(** Result of one execution: the heap and disk it leaves, and the key it
    sends on [i.done] (line 250) once the loop is over. *)
Record Execution := mkExecution {
  heapAfter : gmap loc WatermarkPosition;
  written : list Effect;
  done : option string
}.

Definition execute (h : gmap loc WatermarkPosition) (j : Job) : Execution :=
  let '(h', d, completed) := rangeFormats j h (Formats (Dimensions j)) in
  mkExecution h' d (if completed then Some (FileDiskPath j) else None).

End Engine.

(** *** Dispatcher

    [New] makes the two channels with capacity [s] and starts [listen].
    The state below is the one [listen] and the goroutines it starts
    share: the local map [jobs], the executions started by
    [go i.execute(job)] that have not yet reached the send of line 250,
    and the contents of the two channels. *)

Record State := mkState {
  jobs : gmap string unit;
  running : list Job;
  i_jobs : list Job;
  i_done : list string
}.

(** [New]: the capacity [s] of both channels. *)
Definition New (chansize : list Z) : Z :=
  match chansize with
  | [] => 10
  | s :: _ => s
  end.

Definition initial : State := mkState ∅ [] [] [].

(** [listen], case [done := <-i.done]. *)
Definition listenDone (st : State) (done : string) : State :=
  mkState (delete done (jobs st)) (running st) (i_jobs st) (i_done st).

(** [listen], case [job := <-i.jobs]. *)
Definition listenJob (st : State) (job : Job) : State :=
  match jobs st !! FileDiskPath job with
  | Some _ => st
  | None =>
      mkState (<[FileDiskPath job := tt]> (jobs st)) (running st ++ [job])
              (i_jobs st) (i_done st)
  end.

Section Dispatcher.

Variable X : Externals.
(** Capacity of [i.jobs] and [i.done]. *)
Variable s : Z.

(** One step of the system.  A send on a channel of capacity [s] is
    enabled while fewer than [s] values are buffered; with [s = 0] sender
    and receiver meet, which is the send followed at once by [listen]'s
    receive.  [select] takes any case that is ready. *)
Inductive step : State -> State -> Prop :=
| step_Add st buf fileDiskPath dimensions validate job :
    Add X buf fileDiskPath dimensions validate = inr job ->
    Z.of_nat (length (i_jobs st)) < s ->
    step st (mkState (jobs st) (running st) (i_jobs st ++ [job]) (i_done st))
| step_Add_meet st buf fileDiskPath dimensions validate job :
    Add X buf fileDiskPath dimensions validate = inr job ->
    s = 0 ->
    step st (listenJob st job)
| step_listen_job st job rest :
    i_jobs st = job :: rest ->
    step st (listenJob (mkState (jobs st) (running st) rest (i_done st)) job)
| step_execute_done st before j after :
    running st = before ++ j :: after ->
    Z.of_nat (length (i_done st)) < s ->
    step st (mkState (jobs st) (before ++ after) (i_jobs st)
                     (i_done st ++ [FileDiskPath j]))
| step_execute_done_meet st before j after :
    running st = before ++ j :: after ->
    s = 0 ->
    step st (listenDone (mkState (jobs st) (before ++ after) (i_jobs st)
                                 (i_done st))
                        (FileDiskPath j))
| step_listen_done st done rest :
    i_done st = done :: rest ->
    step st (listenDone (mkState (jobs st) (running st) (i_jobs st) rest) done).

Inductive reachable : State -> Prop :=
| reachable_initial : reachable initial
| reachable_step st st' : reachable st -> step st st' -> reachable st'.

(** File identities with an execution under way. *)
Definition executing (st : State) : list string :=
  FileDiskPath <$> running st.

(** Keys owned by an execution: running, or finished and not yet
    acknowledged by [listen]. *)
Definition owned (st : State) : list string :=
  executing st ++ i_done st.

End Dispatcher.

(** Every key owned by an execution is owned once and is in the map. *)
Definition tracked (m : gmap string unit) (keys : list string) : Prop :=
  NoDup keys /\ forall k, k ∈ keys -> is_Some (m !! k).

(** The invariant of the dispatcher. *)
Definition invariant (st : State) : Prop := tracked (jobs st) (owned st).

(** Every key in the map is owned by an execution. *)
Definition covered (st : State) : Prop :=
  forall k, is_Some (jobs st !! k) -> k ∈ owned st.


(** The job is one that [Add] sent. *)
Definition sentByAdd (X : Externals) (job : Job) : Prop :=
  exists buf dimensions validate,
    Add X buf (FileDiskPath job) dimensions validate = inr job.

End imagist.

(** ** The specification's own wording of the watermark geometry *)

Module spec.

Import imagist.

(** Placement point as the specification words it, in exact integers:
    Left, and any unrecognised anchor, start at the offset; Right and
    Bottom measure the offset back from the far edge; Center measures it
    from the middle. *)
Definition placement (bgWidth bgHeight wmWidth wmHeight : Z)
    (wp : WatermarkPosition) : image.Point :=
  image.mkPoint
    (if bool_decide (Horizontal wp = Right) then
       (bgWidth - wmWidth) - OffsetX wp
     else if bool_decide (Horizontal wp = Center) then
       bgWidth ÷ 2 - wmWidth ÷ 2 + OffsetX wp
     else OffsetX wp)
    (if bool_decide (Vertical wp = Bottom) then
       (bgHeight - wmHeight) - OffsetY wp
     else if bool_decide (Vertical wp = Center) then
       bgHeight ÷ 2 - wmHeight ÷ 2 + OffsetY wp
     else OffsetY wp).

(** An anchor outside of {Left, Right, Center} becomes Left, one outside
    of {Top, Bottom, Center} becomes Top. *)
Definition normalized (wp : WatermarkPosition) : WatermarkPosition :=
  mkWatermarkPosition
    (if bool_decide (Horizontal wp = Left) || bool_decide (Horizontal wp = Right)
        || bool_decide (Horizontal wp = Center)
     then Horizontal wp else Left)
    (if bool_decide (Vertical wp = Top) || bool_decide (Vertical wp = Bottom)
        || bool_decide (Vertical wp = Center)
     then Vertical wp else Top)
    (OffsetX wp) (OffsetY wp).

Definition recognizedHorizontal (a : Z) : Prop :=
  a = Left \/ a = Right \/ a = Center.

Definition recognizedVertical (a : Z) : Prop :=
  a = Top \/ a = Bottom \/ a = Center.

(** The Asset Provider fails to supply the asset [key]: in DEV the file
    under the asset directory does not open as an image; otherwise the
    asset box does not open it, or opens something that does not decode. *)
Definition assetFails (X : Externals) (G : Globals) (key : string) : Prop :=
  (_env G = EnvironmentDEV X
   /\ exists e, imaging_Open X ("../assets/" +:+ key) = Err e)
  \/ (_env G <> EnvironmentDEV X
      /\ ((exists e, assetBox_Open X key = Err e)
          \/ exists f e, assetBox_Open X key = Ok f
                         /\ image_Decode X f = Err e)).

(** The Asset Provider supplies the image [img] for [key]. *)
Definition assetLoads (X : Externals) (G : Globals) (key : string)
    (img : imaging.Image) : Prop :=
  (_env G = EnvironmentDEV X
   /\ imaging_Open X ("../assets/" +:+ key) = Ok img)
  \/ (_env G <> EnvironmentDEV X
      /\ exists f, assetBox_Open X key = Ok f /\ image_Decode X f = Ok img).

(** Key of the watermark of a format: [<base watermark key>:<name>]. *)
Definition watermarkKey (G : Globals) (format : FormatDimensions) : string :=
  _diskPathWatermark G +:+ ":" +:+ Name format.


(** [h'] is [h] where some positions have had their anchors normalised:
    no position appears or disappears, and each is as before or
    normalised. *)
Definition normalizes (h h' : gmap loc WatermarkPosition) : Prop :=
  forall p,
    h' !! p = h !! p
    \/ exists wp, h !! p = Some wp /\ h' !! p = Some (normalized wp).

(** The upload types the specification accepts. *)
Definition accepted (imgType : string) : Prop :=
  imgType = "jpg" \/ imgType = "jpeg" \/ imgType = "png".

End spec.

(** ** Concrete setups used to run the definitions *)

Module examples.

Import imagist.

(** A 20x10 watermark and a decodable asset file. *)
Definition logo : imaging.Image :=
  imaging.Decoded (image.Rect 0 0 20 10) "logo".

(** Externals in which the upload [photo.jpg] has the size and type given,
    every codec and disk operation succeeds, and the assets are as the two
    functions say. *)
Definition externals (config : image.Config) (imgType : string)
    (assetsOnDisk : string -> res imaging.Image)
    (assetBox : string -> res File) : Externals :=
  mkExternals (-1) "dev" "prod"
    (fun _ => true)
    (fun _ => Ok (config, imgType))
    (fun path =>
       if bool_decide (path = "photo.jpg") then
         Ok (imaging.Decoded
               (image.Rect 0 0 (image.Width config) (image.Height config))
               path)
       else assetsOnDisk path)
    assetBox
    (fun _ => Ok logo)
    (fun _ _ _ _ => image.ZR)
    (fun _ => Ok imaging.JPEG)
    (fun _ => Ok tt)
    (fun _ _ _ => None).

Definition noAsset {A} (path : string) : res A := Err "no such file".

Definition dev : Globals := mkGlobals "dev" "watermark" "backdrop".

(** The decoded upload. *)
Definition photo (config : image.Config) : imaging.Image :=
  imaging.Decoded
    (image.Rect 0 0 (image.Width config) (image.Height config)) "photo.jpg".

(** Format entries. *)
Definition thumb : FormatDimensions :=
  mkFormatDimensions "thumb" 50 200 false None.
Definition banner : FormatDimensions :=
  mkFormatDimensions "banner" 200 100 false (Some 1%positive).
Definition poster : FormatDimensions :=
  mkFormatDimensions "poster" 300 300 true None.

(** A 100x100 upload with nothing in the asset directory. *)
Definition small : image.Config := image.mkConfig 100 100.
Definition smallWorld : Externals := externals small "jpeg" noAsset noAsset.

(** A 400x300 upload. *)
Definition large : image.Config := image.mkConfig 400 300.
Definition largeWorld : Externals := externals large "jpeg" noAsset noAsset.

(** A portrait 100x200 upload. *)
Definition tall : image.Config := image.mkConfig 100 200.
Definition tallWorld : Externals := externals tall "jpeg" noAsset noAsset.

(** A 100x100 gif. *)
Definition gifWorld : Externals := externals small "gif" noAsset noAsset.

(** A 400x300 upload whose assets are all present, on disk and in the
    asset box. *)
Definition stockedWorld : Externals :=
  externals large "jpeg"
            (fun _ => Ok logo) (fun key => Ok (Handle key)).

(** The caller's heap: one watermark position, at address 1. *)
Definition heapWith (wp : WatermarkPosition) : gmap loc WatermarkPosition :=
  {[ 1%positive := wp ]}.

(** The job [Add] queues for the 100x100 upload with default dimensions,
    and the dispatcher once [listen] has admitted it. *)
Definition firstJob : Job :=
  mkJob "photo.jpg" small (DefaultDimensions smallWorld).
Definition admitted : State := listenJob initial firstJob.

(** Dimension options with a width floor of 80, and with both floors
    at 200. *)
Definition floor80 : ImageDimensions := mkImageDimensions 80 (-1) [thumb].
Definition floor200 : ImageDimensions := mkImageDimensions 200 200 [thumb].

(** The dispatcher once the execution of [firstJob] has sent its
    completion signal. *)
Definition finished : State :=
  mkState {[ "photo.jpg" := tt ]} [] [] ["photo.jpg"].

(** A position anchored at the bottom right corner. *)
Definition corner : WatermarkPosition := mkWatermarkPosition Right Bottom 5 5.

(** Jobs over one or two entries for the 100x100 and the 400x300 upload. *)
Definition smallJob (formats : list FormatDimensions) : Job :=
  mkJob "photo.jpg" small (mkImageDimensions (-1) (-1) formats).
Definition largeJob (formats : list FormatDimensions) : Job :=
  mkJob "photo.jpg" large (mkImageDimensions (-1) (-1) formats).

(** A watermark position whose anchors are none of the named ones. *)
Definition odd : WatermarkPosition := mkWatermarkPosition 7 9 3 4.


End examples.

(** * Properties *)

(** ** Machine integers *)

Section GoIntFacts.

Import GoInt.

Lemma modulus_pos : 0 < modulus.
Proof. reflexivity. Qed.

Lemma wrap_in_range z : in_range z -> wrap z = z.
Proof.
  unfold in_range, wrap. intros Hz.
  rewrite Z.mod_small; [lia|].
  unfold min_int, max_int, modulus, bits in *. simpl in *. lia.
Qed.

Lemma wrap_range z : in_range (wrap z).
Proof.
  unfold in_range, wrap.
  pose proof (Z.mod_pos_bound (z - min_int) modulus modulus_pos) as Hb.
  unfold min_int, max_int, modulus, bits in *. simpl in *. lia.
Qed.

End GoIntFacts.

(** [wrap] is the identity modulo [2^64]; sums and differences of wrapped
    terms are compared modulo [2^64]. *)
Lemma wrap_eqm z : eqm GoInt.modulus (GoInt.wrap z) z.
Proof.
  unfold eqm, GoInt.wrap.
  rewrite Zplus_mod_idemp_l. f_equal. ring.
Qed.

Lemma eqm_wrap a b : eqm GoInt.modulus a b -> GoInt.wrap a = GoInt.wrap b.
Proof.
  unfold eqm, GoInt.wrap. intros H. f_equal.
  rewrite <- (Zminus_mod_idemp_l a), <- (Zminus_mod_idemp_l b), H. reflexivity.
Qed.

#[local] Existing Instance eqm_setoid.
#[local] Existing Instance Zplus_eqm.
#[local] Existing Instance Zminus_eqm.

(** Proves [wrap e1 = wrap e2] where [e1] and [e2] agree once their
    inner [wrap]s are dropped. *)
Ltac unwrap :=
  unfold GoInt.add, GoInt.sub, GoInt.quot;
  apply eqm_wrap; rewrite ?wrap_eqm;
  match goal with |- eqm _ ?a ?b => replace a with b by ring end;
  reflexivity.

(** ** Geometry of the images the engine builds *)

Section Geometry.

Import imagist.

Variable X : Externals.
Variable G : Globals.

Local Abbreviation Bounds := (imaging.Bounds (fit_scaled X)).

Lemma box_positive w h :
  0 < w -> 0 < h -> imaging.box w h = image.mkRect image.ZP (image.mkPoint w h).
Proof.
  intros Hw Hh. unfold imaging.box, image.Rect.
  rewrite !bool_decide_eq_false_2 by lia. reflexivity.
Qed.

Lemma box_nonneg_Min w h : 0 <= w -> 0 <= h -> image.Min (imaging.box w h) = image.ZP.
Proof.
  intros Hw Hh. unfold imaging.box, image.Rect.
  rewrite !bool_decide_eq_false_2 by lia. reflexivity.
Qed.

Lemma Dx_box w h : 0 < w -> 0 < h -> GoInt.in_range w -> image.Dx (imaging.box w h) = w.
Proof.
  intros Hw Hh Hr. rewrite box_positive by done. unfold image.Dx; simpl.
  unfold GoInt.sub. rewrite Z.sub_0_r. by apply wrap_in_range.
Qed.

Lemma Dy_box w h : 0 < w -> 0 < h -> GoInt.in_range h -> image.Dy (imaging.box w h) = h.
Proof.
  intros Hw Hh Hr. rewrite box_positive by done. unfold image.Dy; simpl.
  unfold GoInt.sub. rewrite Z.sub_0_r. by apply wrap_in_range.
Qed.

(** A filled or freshly made image is empty or exactly the requested box. *)
Lemma Bounds_Fill img w h a f :
  Bounds (imaging.Fill img w h a f) = image.ZR
  \/ (0 < w /\ 0 < h /\ Bounds (imaging.Fill img w h a f) = imaging.box w h).
Proof.
  simpl. repeat case_bool_decide; simpl; try (by left).
  destruct (imaging.empty _); [by left|]. right. repeat split; lia.
Qed.

Lemma Bounds_New w h c :
  Bounds (imaging.New w h c) = image.ZR
  \/ (0 < w /\ 0 < h /\ Bounds (imaging.New w h c) = imaging.box w h).
Proof.
  simpl. repeat case_bool_decide; simpl; try (by left).
  right. repeat split; lia.
Qed.

(** Whatever the path taken, the composed image starts at the origin. *)
Lemma compose_Min src newWidth newHeight landscape format :
  GoInt.in_range (Width format) -> GoInt.in_range (Height format) ->
  image.Min (Bounds (compose X G src newWidth newHeight landscape format))
  = image.ZP.
Proof.
  intros Hw Hh. unfold compose.
  destruct (Backdrop format && negb landscape).
  - cbn [imaging.Bounds].
    assert (Hb : forall back,
      (Bounds back = image.ZR
       \/ (0 < Width format /\ 0 < Height format
           /\ Bounds back = imaging.box (Width format) (Height format))) ->
      image.Min (imaging.box (image.Dx (Bounds back)) (image.Dy (Bounds back)))
      = image.ZP).
    { intros back [-> | (H1 & H2 & ->)].
      - reflexivity.
      - rewrite Dx_box, Dy_box by done. apply box_nonneg_Min; lia. }
    destruct (openBackdrop X G); apply Hb.
    + apply Bounds_Fill.
    + apply Bounds_New.
  - destruct (Bounds_Fill src newWidth newHeight imaging.Center imaging.Lanczos)
      as [-> | (H1 & H2 & ->)]; [reflexivity|].
    apply box_nonneg_Min; lia.
Qed.

End Geometry.

Section Placement.

Import imagist.

Lemma switchHorizontal_spec bgBounds wmW wp :
  image.Min bgBounds = image.ZP ->
  switchHorizontal bgBounds (image.Dx bgBounds) wmW wp
  = (GoInt.wrap (image.X (spec.placement (image.Dx bgBounds) 0 wmW 0 wp)),
     Horizontal (spec.normalized wp)).
Proof.
  intros HMin. unfold switchHorizontal, spec.placement, spec.normalized.
  rewrite HMin. cbn [image.X image.Y image.ZP Horizontal].
  repeat case_bool_decide; simpl; try (exfalso; unfold Left, Right, Center in *; lia);
    f_equal; unwrap.
Qed.

Lemma switchVertical_spec bgBounds wmH wp :
  image.Min bgBounds = image.ZP ->
  switchVertical bgBounds (image.Dy bgBounds) wmH wp
  = (GoInt.wrap (image.Y (spec.placement 0 (image.Dy bgBounds) 0 wmH wp)),
     Vertical (spec.normalized wp)).
Proof.
  intros HMin. unfold switchVertical, spec.placement, spec.normalized.
  rewrite HMin. cbn [image.X image.Y image.ZP Vertical].
  repeat case_bool_decide; simpl; try (exfalso; unfold Top, Bottom, Center in *; lia);
    f_equal; unwrap.
Qed.

End Placement.

Section PlacementClaim.

Import imagist.

(** C5.  The point at which the watermark is composited is the one the
    specification gives in terms of the widths and heights of the
    background and of the watermark: Left and any unrecognised horizontal
    anchor give [OffsetX], Right gives [(bgWidth - wmWidth) - OffsetX],
    Center gives [bgWidth/2 - wmWidth/2 + OffsetX], and likewise
    vertically with Top, Bottom and Center; an unrecognised anchor is
    stored back as Left, respectively Top.  The code computes in Go's
    [int], so the point is the specified one wrapped to 64 bits, and is
    exactly the specified one whenever that is representable.  Background
    200x100, watermark 20x10: Right/Bottom with offsets 5 gives (175, 85)
    and Center/Center with offsets 0 gives (90, 45). *)
Theorem watermark_placement_point (X : Externals) (G : Globals)
    (src : imaging.Image) (newWidth newHeight : Z) (landscape : bool)
    (format : FormatDimensions) (watermark : imaging.Image)
    (wp : WatermarkPosition) :
  GoInt.in_range (Width format) -> GoInt.in_range (Height format) ->
  let bgBounds :=
    imaging.Bounds (fit_scaled X)
      (compose X G src newWidth newHeight landscape format) in
  let watermarkBounds := imaging.Bounds (fit_scaled X) watermark in
  let expected :=
    spec.placement (image.Dx bgBounds) (image.Dy bgBounds)
                   (image.Dx watermarkBounds) (image.Dy watermarkBounds) wp in
  let computed := placeWatermark bgBounds watermarkBounds wp in
  image.X computed.1 = GoInt.wrap (image.X expected)
  /\ image.Y computed.1 = GoInt.wrap (image.Y expected)
  /\ (GoInt.in_range (image.X expected) ->
      GoInt.in_range (image.Y expected) -> computed.1 = expected)
  /\ computed.2 = spec.normalized wp
  /\ (placeWatermark (image.Rect 0 0 200 100) (image.Rect 0 0 20 10)
        (mkWatermarkPosition Right Bottom 5 5)).1 = image.mkPoint 175 85
  /\ (placeWatermark (image.Rect 0 0 200 100) (image.Rect 0 0 20 10)
        (mkWatermarkPosition Center Center 0 0)).1 = image.mkPoint 90 45.
Proof.
  intros Hw Hh bgBounds watermarkBounds expected computed.
  assert (HMin : image.Min bgBounds = image.ZP) by by apply compose_Min.
  assert (Hc : computed
               = (image.mkPoint (GoInt.wrap (image.X expected))
                                (GoInt.wrap (image.Y expected)),
                  spec.normalized wp)).
  { unfold computed, placeWatermark.
    rewrite switchHorizontal_spec, switchVertical_spec by done.
    reflexivity. }
  rewrite Hc. cbn [fst snd image.X image.Y].
  repeat split.
  - intros Hx Hy. rewrite !wrap_in_range by done. by destruct expected.
Qed.

End PlacementClaim.

Lemma watermark_placement_point_witness :
  GoInt.in_range 200 /\ GoInt.in_range 100
  /\ (imagist.placeWatermark
        (imaging.Bounds (fun _ _ _ _ => image.ZR)
           (imagist.compose
              (examples.externals (image.mkConfig 400 300) "jpeg"
                                  examples.noAsset examples.noAsset)
              examples.dev
              (imaging.Decoded (image.Rect 0 0 400 300) "photo.jpg")
              200 100 true
              (imagist.mkFormatDimensions "banner" 200 100 false (Some 1%positive))))
        (imaging.Bounds (fun _ _ _ _ => image.ZR) examples.logo)
        (imagist.mkWatermarkPosition imagist.Right imagist.Bottom 5 5)).1
     = image.mkPoint 175 85.
Proof.
  assert (H200 : GoInt.in_range 200) by (split; discriminate).
  assert (H100 : GoInt.in_range 100) by (split; discriminate).
  split; [exact H200|]. split; [exact H100|].
  pose proof (watermark_placement_point
    (examples.externals (image.mkConfig 400 300) "jpeg"
                        examples.noAsset examples.noAsset)
    examples.dev
    (imaging.Decoded (image.Rect 0 0 400 300) "photo.jpg")
    200 100 true
    (imagist.mkFormatDimensions "banner" 200 100 false (Some 1%positive))
    examples.logo
    (imagist.mkWatermarkPosition imagist.Right imagist.Bottom 5 5)
    H200 H100) as (_ & _ & Hexact & _).
  apply Hexact; split; discriminate.
Defined.

(** ** The loop of [execute] *)

Section Execute.

Import imagist.

Variable X : Externals.
Variable G : Globals.


(** The loop reads the job only through its path and header. *)
Lemma rangeFormats_ext j j' h formats :
  FileDiskPath j = FileDiskPath j' -> Config j = Config j' ->
  rangeFormats X G j h formats = rangeFormats X G j' h formats.
Proof.
  intros Hp Hc. revert h.
  induction formats as [|format rest IH]; intros h; [reflexivity|].
  cbn [rangeFormats]. unfold iteration. rewrite Hp, Hc.
  destruct (ret _); [|reflexivity]. by rewrite IH.
Qed.



(** C9.  The backdrop path is taken exactly when the entry asks for a
    backdrop and the original is not landscape, landscape meaning that the
    original height is strictly below the original width (so a square is
    not landscape); in every other case the image is filled and cropped.
    This is the image that [execute] hands on for every entry it does
    not skip. *)
Theorem backdrop_path_iff (j : Job) (format : FormatDimensions)
    (src : imaging.Image) :
  let newWidth := (targetSize (Config j) format).1 in
  let newHeight := (targetSize (Config j) format).2 in
  let composed :=
    compose X G src newWidth newHeight (isLandscape (Config j)) format in
  let portrait := ~ image.Height (Config j) < image.Width (Config j) in
  (isLandscape (Config j) = true
   <-> image.Height (Config j) < image.Width (Config j))
  /\ (image.Height (Config j) = image.Width (Config j) ->
      isLandscape (Config j) = false)
  /\ ((exists back,
         composed = imaging.OverlayCenter
                      back (imaging.Fit src newWidth newHeight imaging.Lanczos))
      <-> Backdrop format = true /\ portrait)
  /\ (composed = imaging.Fill src newWidth newHeight
                              imaging.Center imaging.Lanczos
      <-> ~ (Backdrop format = true /\ portrait))
  /\ (forall h, skipped format = false ->
      imaging_Open X (FileDiskPath j) = Ok src ->
      iteration X G j h format
      = overlayAndEncode X G h (FileDiskPath j) composed format).
Proof.
  intros newWidth newHeight composed portrait.
  assert (Hl : isLandscape (Config j) = true
               <-> image.Height (Config j) < image.Width (Config j))
    by apply bool_decide_eq_true.
  split; [exact Hl|]. split.
  { intros Heq. unfold isLandscape. apply bool_decide_eq_false. lia. }
  assert (Hpath : Backdrop format && negb (isLandscape (Config j)) = true
                  <-> Backdrop format = true /\ portrait).
  { unfold portrait. rewrite andb_true_iff, negb_true_iff, <- Hl.
    destruct (isLandscape (Config j)); intuition congruence. }
  assert (Hcomposed :
    composed
    = if Backdrop format && negb (isLandscape (Config j)) then
        imaging.OverlayCenter
          (match openBackdrop X G with
           | Err _ =>
               imaging.New (Width format) (Height format) fallbackColor
           | Ok back =>
               imaging.Fill back (Width format) (Height format)
                            imaging.Center imaging.Lanczos
           end)
          (imaging.Fit src newWidth newHeight imaging.Lanczos)
      else imaging.Fill src newWidth newHeight
                        imaging.Center imaging.Lanczos)
    by reflexivity.
  split; [|split].
  - rewrite <- Hpath, Hcomposed.
    destruct (Backdrop format && negb (isLandscape (Config j))).
    + split; [done|]. intros _. eauto.
    + split; [|done]. intros [back Hback]. discriminate.
  - rewrite <- Hpath, Hcomposed.
    destruct (Backdrop format && negb (isLandscape (Config j))).
    + split; [discriminate|]. intros H. by destruct H.
    + split; [|done]. intros _. discriminate.
  - intros h Hskip Hopen. unfold iteration, imageProcess.
    rewrite Hskip, Hopen. unfold composed, newWidth, newHeight.
    by destruct (targetSize (Config j) format).
Qed.

End Execute.


Lemma backdrop_path_iff_witness :
  imagist.skipped examples.poster = false
  /\ imagist.imaging_Open examples.smallWorld "photo.jpg"
     = Ok (examples.photo examples.small)
  /\ imagist.iteration examples.smallWorld examples.dev
       (imagist.mkJob "photo.jpg" examples.small
          (imagist.mkImageDimensions (-1) (-1) [examples.poster]))
       ∅ examples.poster
     = imagist.overlayAndEncode examples.smallWorld examples.dev ∅ "photo.jpg"
         (imaging.OverlayCenter
            (imaging.New 300 300 imagist.fallbackColor)
            (imaging.Fit (examples.photo examples.small) 100 300
                         imaging.Lanczos))
         examples.poster.
Proof.
  assert (Hskip : imagist.skipped examples.poster = false) by reflexivity.
  assert (Hopen : imagist.imaging_Open examples.smallWorld "photo.jpg"
                  = Ok (examples.photo examples.small)) by reflexivity.
  split; [exact Hskip|]. split; [exact Hopen|].
  exact (proj2 (proj2 (proj2 (proj2
           (backdrop_path_iff examples.smallWorld examples.dev
              (imagist.mkJob "photo.jpg" examples.small
                 (imagist.mkImageDimensions (-1) (-1) [examples.poster]))
              examples.poster (examples.photo examples.small)))))
           ∅ Hskip Hopen).
Defined.

(** C1.  The width handed to the transform is capped at the original
    width, but the height is not capped: the test that should compare the
    original height with the requested one compares the original height
    with itself, so the requested height always goes through.  A 100x100
    upload with an entry asking for 50x200 is accepted by [Add] and
    yields a variant 200 pixels high. *)
Theorem target_height_not_capped :
  (forall config format,
     (imagist.targetSize config format).1
     = Z.min (image.Width config) (imagist.Width format)
     /\ (imagist.targetSize config format).2 = imagist.Height format)
  /\ imagist.Add examples.smallWorld [] "photo.jpg"
       (Some (imagist.mkImageDimensions (-1) (-1) [examples.thumb])) true
     = inr (imagist.mkJob "photo.jpg" examples.small
              (imagist.mkImageDimensions (-1) (-1) [examples.thumb]))
  /\ imagist.targetSize examples.small examples.thumb = (50, 200)
  /\ imagist.written
       (imagist.execute examples.smallWorld examples.dev ∅
          (imagist.mkJob "photo.jpg" examples.small
             (imagist.mkImageDimensions (-1) (-1) [examples.thumb])))
     = [imagist.Created "photo.jpg:thumb";
        imagist.Encoded "photo.jpg:thumb"
          (imaging.Fill (examples.photo examples.small) 50 200
                        imaging.Center imaging.Lanczos)
          imaging.JPEG]
  /\ image.Dy (imaging.Bounds (imagist.fit_scaled examples.smallWorld)
                 (imaging.Fill (examples.photo examples.small) 50 200
                               imaging.Center imaging.Lanczos))
     = 200
  /\ image.Height examples.small = 100.
Proof.
  split.
  { intros config format. unfold imagist.targetSize. cbn [fst snd]. split.
    - case_bool_decide; lia.
    - rewrite bool_decide_eq_false_2 by lia. reflexivity. }
  repeat split.
Qed.

(** ** The validator *)

Section Validator.

Import imagist.

Variable X : Externals.

Lemma accepted_decide imgType :
  bool_decide (imgType = TypeImageJPG) || bool_decide (imgType = TypeImageJPEG)
  || bool_decide (imgType = TypeImagePNG) = true
  <-> spec.accepted imgType.
Proof.
  unfold spec.accepted, TypeImageJPG, TypeImageJPEG, TypeImagePNG.
  rewrite !orb_true_iff, !bool_decide_eq_true. tauto.
Qed.

(** [Add] queues a job only for a buffer that is an image, whose header
    decodes and whose type is accepted; the job carries the arguments. *)
Lemma Add_inr buf path dimensions validate job :
  Add X buf path dimensions validate = inr job ->
  filetype_IsImage X buf = true
  /\ exists config imgType,
       image_DecodeConfig X buf = Ok (config, imgType)
       /\ spec.accepted imgType
       /\ job = mkJob path config (default (DefaultDimensions X) dimensions).
Proof.
  unfold Add. destruct (filetype_IsImage X buf); [|discriminate]. cbn [negb].
  destruct (image_DecodeConfig X buf) as [[config imgType]|e]; [|discriminate].
  destruct (bool_decide (imgType = TypeImageJPG) || _ || _) eqn:Hty;
    [|discriminate].
  intros H. split; [reflexivity|]. exists config, imgType.
  split; [reflexivity|]. split; [by apply accepted_decide|].
  repeat (destruct (_ && _ && _) in H; [discriminate|]).
  congruence.
Qed.

(** C6.  A buffer whose header decodes to a type other than jpg, jpeg or
    png is refused with the error "image type <type> invalid" and nothing
    is queued; a job is queued only for one of the three types.  This
    holds for gif, which [init] registers with the codec registry. *)
Theorem unsupported_type_rejected (buf : list Byte.byte) (path : string)
    (dimensions : option ImageDimensions) (validate : bool)
    (config : image.Config) (imgType : string) :
  filetype_IsImage X buf = true ->
  image_DecodeConfig X buf = Ok (config, imgType) ->
  (~ spec.accepted imgType ->
   Add X buf path dimensions validate
   = inl (Errorf "image type %s invalid" [ArgS imgType]))
  /\ (forall job,
        Add X buf path dimensions validate = inr job -> spec.accepted imgType)
  /\ "gif" ∈ init.*1
  /\ (imgType = "gif" ->
      Add X buf path dimensions validate
      = inl (Errorf "image type %s invalid" [ArgS "gif"])).
Proof.
  intros Himg Hdec.
  assert (Hrej : ~ spec.accepted imgType ->
                 Add X buf path dimensions validate
                 = inl (Errorf "image type %s invalid" [ArgS imgType])).
  { intros Hno. unfold Add. rewrite Himg, Hdec. cbn [negb].
    destruct (bool_decide (imgType = TypeImageJPG) || _ || _) eqn:Hty;
      [|reflexivity].
    by apply accepted_decide in Hty. }
  split; [exact Hrej|]. split; [|split].
  - intros job Hjob. apply Add_inr in Hjob as (_ & c & t & Hdec' & Hacc & _).
    congruence.
  - cbn. set_solver.
  - intros ->. apply Hrej. unfold spec.accepted. intuition discriminate.
Qed.

(** C7.  A floor set to the no-limit value never makes [Add] refuse an
    image on that axis, whether or not the floors are enforced; and when
    they are not enforced no floor is looked at: every image of an
    accepted type is queued. *)
Theorem no_limit_floor_never_rejects (buf : list Byte.byte) (path : string)
    (dimensions : option ImageDimensions) (validate : bool) :
  let floors := default (DefaultDimensions X) dimensions in
  (MinWidth floors = NoLimit X ->
   forall args,
     Add X buf path dimensions validate
     <> inl (Errorf "image width less than %dpx" args))
  /\ (MinHeight floors = NoLimit X ->
      forall args,
        Add X buf path dimensions validate
        <> inl (Errorf "image height less than %dpx" args))
  /\ (MinWidth floors = NoLimit X -> MinHeight floors = NoLimit X ->
      forall config imgType,
        filetype_IsImage X buf = true ->
        image_DecodeConfig X buf = Ok (config, imgType) ->
        spec.accepted imgType ->
        Add X buf path dimensions validate = inr (mkJob path config floors))
  /\ (validate = false ->
      forall config imgType,
        filetype_IsImage X buf = true ->
        image_DecodeConfig X buf = Ok (config, imgType) ->
        spec.accepted imgType ->
        Add X buf path dimensions validate = inr (mkJob path config floors)).
Proof.
  intros floors. unfold Add. fold floors.
  destruct (filetype_IsImage X buf); cbn [negb];
    [|repeat split; intros; discriminate].
  destruct (image_DecodeConfig X buf) as [[config imgType]|e];
    [|repeat split; intros; discriminate].
  destruct (bool_decide (imgType = TypeImageJPG) || _ || _) eqn:Hty.
  2:{ repeat split; intros; try discriminate.
      all: match goal with
           | H : Ok _ = Ok _ |- _ => injection H as <- <-
           end.
      all: match goal with
           | H : spec.accepted _ |- _ => apply accepted_decide in H; congruence
           end. }
  repeat split.
  - intros Hw args. rewrite (bool_decide_eq_false_2 (_ ≠ _)) by tauto.
    rewrite andb_false_r. cbn [andb].
    destruct (_ && _ && _); discriminate.
  - intros Hh args. rewrite (bool_decide_eq_false_2 (MinHeight floors ≠ _)) by tauto.
    rewrite andb_false_r. cbn [andb].
    destruct (_ && _ && _); discriminate.
  - intros Hw Hh c t _ [= <- <-] _.
    rewrite (bool_decide_eq_false_2 (MinWidth floors ≠ _)) by tauto.
    rewrite (bool_decide_eq_false_2 (MinHeight floors ≠ _)) by tauto.
    by rewrite !andb_false_r.
  - intros -> c t _ [= <- <-] _. reflexivity.
Qed.

End Validator.

Lemma unsupported_type_rejected_witness :
  imagist.filetype_IsImage examples.gifWorld [] = true
  /\ imagist.image_DecodeConfig examples.gifWorld []
     = Ok (examples.small, "gif")
  /\ imagist.Add examples.gifWorld [] "photo.jpg" None true
     = inl (Errorf "image type %s invalid" [ArgS "gif"]).
Proof.
  assert (Himg : imagist.filetype_IsImage examples.gifWorld [] = true)
    by reflexivity.
  assert (Hdec : imagist.image_DecodeConfig examples.gifWorld []
                 = Ok (examples.small, "gif")) by reflexivity.
  split; [exact Himg|]. split; [exact Hdec|].
  apply (unsupported_type_rejected examples.gifWorld [] "photo.jpg" None true
           examples.small "gif" Himg Hdec).
  reflexivity.
Defined.

Lemma no_limit_floor_never_rejects_witness :
  imagist.MinWidth (imagist.DefaultDimensions examples.smallWorld)
  = imagist.NoLimit examples.smallWorld
  /\ imagist.MinHeight (imagist.DefaultDimensions examples.smallWorld)
     = imagist.NoLimit examples.smallWorld
  /\ imagist.Add examples.smallWorld [] "photo.jpg" None true
     = inr (imagist.mkJob "photo.jpg" examples.small
              (imagist.DefaultDimensions examples.smallWorld)).
Proof.
  assert (Hw : imagist.MinWidth (imagist.DefaultDimensions examples.smallWorld)
               = imagist.NoLimit examples.smallWorld) by reflexivity.
  assert (Hh : imagist.MinHeight (imagist.DefaultDimensions examples.smallWorld)
               = imagist.NoLimit examples.smallWorld) by reflexivity.
  split; [exact Hw|]. split; [exact Hh|].
  apply (proj1 (proj2 (proj2
           (no_limit_floor_never_rejects examples.smallWorld [] "photo.jpg"
              None true))) Hw Hh examples.small "jpeg").
  - reflexivity.
  - reflexivity.
  - right. left. reflexivity.
Defined.

(** ** The transform of one entry *)

Section Transform.

Import imagist.

Variable X : Externals.
Variable G : Globals.

Lemma openBackdrop_fails :
  spec.assetFails X G (_diskPathBackdrop G) ->
  exists e, openBackdrop X G = Err e.
Proof.
  unfold spec.assetFails, openBackdrop.
  intros [[Henv [e He]] | [Henv [[e He] | (f & e & Hf & He)]]].
  - rewrite bool_decide_eq_true_2 by done. eauto.
  - rewrite bool_decide_eq_false_2 by done. rewrite He. cbn. eauto.
  - rewrite bool_decide_eq_false_2 by done. rewrite Hf. cbn. eauto.
Qed.

Lemma openWatermark_loads format watermark :
  spec.assetLoads X G (spec.watermarkKey G format) watermark ->
  openWatermark X G format = inr (Ok watermark).
Proof.
  unfold spec.assetLoads, spec.watermarkKey, openWatermark.
  intros [[Henv Ho] | [Henv (f & Hf & Hd)]].
  - rewrite bool_decide_eq_true_2 by done. by rewrite Ho.
  - rewrite bool_decide_eq_false_2 by done. rewrite Hf. cbn. by rewrite Hd.
Qed.

(** The anchors left behind the pointer depend on the anchors alone. *)
Lemma placeWatermark_normalizes bgBounds watermarkBounds wp :
  (placeWatermark bgBounds watermarkBounds wp).2 = spec.normalized wp.
Proof.
  unfold placeWatermark, switchHorizontal, switchVertical, spec.normalized.
  repeat case_bool_decide; cbn; try reflexivity;
    exfalso; unfold Left, Right, Top, Bottom, Center in *; lia.
Qed.

Lemma normalized_recognized wp :
  spec.recognizedHorizontal (Horizontal (spec.normalized wp))
  /\ spec.recognizedVertical (Vertical (spec.normalized wp)).
Proof.
  unfold spec.normalized, spec.recognizedHorizontal, spec.recognizedVertical.
  cbn. repeat case_bool_decide; cbn; tauto.
Qed.

(** Without a watermark the heap is left alone. *)
Lemma overlayAndEncode_no_watermark h path img format :
  Watermark format = None ->
  overlayAndEncode X G h path img format
  = mkResult (encode X path img format).1 h (encode X path img format).2.
Proof.
  intros Hw. unfold overlayAndEncode. rewrite Hw.
  by destruct (encode X path img format).
Qed.




(** C4, as the code has it.  On the backdrop path, when the backdrop
    asset cannot be supplied, the fitted original is composited centred on
    a solid backdrop of colour NRGBA(0, 29, 56, 0) whose size is the size
    the entry requests ([Width] x [Height] of the entry, not the capped
    size the original is fitted into); the failure itself is never
    returned: what [imageProcess] returns is what overlaying and encoding
    that composite returns, and with no watermark and a working encoder
    it is nil with the composite written. *)
Theorem backdrop_fallback (h : gmap loc WatermarkPosition) (path : string)
    (newWidth newHeight : Z) (format : FormatDimensions)
    (src : imaging.Image) :
  Backdrop format = true ->
  imaging_Open X path = Ok src ->
  spec.assetFails X G (_diskPathBackdrop G) ->
  let composite :=
    imaging.OverlayCenter
      (imaging.New (Width format) (Height format) (imaging.mkNRGBA 0 29 56 0))
      (imaging.Fit src newWidth newHeight imaging.Lanczos) in
  compose X G src newWidth newHeight false format = composite
  /\ imageProcess X G h path newWidth newHeight false format
     = overlayAndEncode X G h path composite format
  /\ (forall codec,
        Watermark format = None ->
        imaging_FormatFromFilename X path = Ok codec ->
        os_Create X (path +:+ ":" +:+ Name format) = Ok tt ->
        imaging_Encode X (path +:+ ":" +:+ Name format) composite codec
        = None ->
        imageProcess X G h path newWidth newHeight false format
        = mkResult (Return None) h
            [Created (path +:+ ":" +:+ Name format);
             Encoded (path +:+ ":" +:+ Name format) composite codec]).
Proof.
  intros Hback Hsrc Hfail composite.
  assert (Hc : compose X G src newWidth newHeight false format = composite).
  { unfold compose. rewrite Hback. cbn [andb negb].
    destruct (openBackdrop_fails Hfail) as [e ->]. reflexivity. }
  assert (Hi : imageProcess X G h path newWidth newHeight false format
               = overlayAndEncode X G h path composite format).
  { unfold imageProcess. by rewrite Hsrc, Hc. }
  split; [exact Hc|]. split; [exact Hi|].
  intros codec Hw Hcodec Hcreate Hencode.
  rewrite Hi, overlayAndEncode_no_watermark by done.
  unfold encode. by rewrite Hcodec, Hcreate, Hencode.
Qed.

(** C10, as the code has it.  When the original opens and the watermark
    of the entry loads, processing the entry writes the normalised
    position back through the pointer the entry holds: an unrecognised
    horizontal anchor becomes Left and an unrecognised vertical anchor
    becomes Top in the caller's [WatermarkPosition], nothing else on the
    heap changes, and whoever reads through the same pointer afterwards,
    this job or a later one, finds the normalised value. *)
Theorem unrecognized_anchor_written_back (h : gmap loc WatermarkPosition)
    (path : string) (newWidth newHeight : Z) (landscape : bool)
    (format : FormatDimensions) (p : loc) (wp : WatermarkPosition)
    (src watermark : imaging.Image) :
  Watermark format = Some p ->
  h !! p = Some wp ->
  imaging_Open X path = Ok src ->
  spec.assetLoads X G (spec.watermarkKey G format) watermark ->
  let after :=
    heap (imageProcess X G h path newWidth newHeight landscape format) in
  after = <[p := spec.normalized wp]> h
  /\ after !! p = Some (spec.normalized wp)
  /\ (forall q, q <> p -> after !! q = h !! q)
  /\ (~ spec.recognizedHorizontal (Horizontal wp) ->
      Horizontal (spec.normalized wp) = Left /\ after !! p <> h !! p)
  /\ (~ spec.recognizedVertical (Vertical wp) ->
      Vertical (spec.normalized wp) = Top /\ after !! p <> h !! p)
  /\ (forall path' newWidth' newHeight' landscape' format',
        Watermark format' = Some p ->
        heap (imageProcess X G after path' newWidth' newHeight' landscape'
                           format')
        = after).
Proof.
  intros Hp Hh Hsrc Hload after.
  assert (Hafter : after = <[p := spec.normalized wp]> h).
  { unfold after, imageProcess, overlayAndEncode.
    rewrite Hsrc, Hp, (openWatermark_loads _ _ Hload), Hh.
    pose proof (placeWatermark_normalizes
      (imaging.Bounds (fit_scaled X)
         (compose X G src newWidth newHeight landscape format))
      (imaging.Bounds (fit_scaled X) watermark) wp) as Hn.
    destruct (placeWatermark _ _ wp) as [pos wp']. cbn in Hn. subst wp'.
    by destruct (encode X path _ format). }
  assert (Hlook : after !! p = Some (spec.normalized wp))
    by (rewrite Hafter; apply lookup_insert_eq).
  split; [exact Hafter|]. split; [exact Hlook|]. split; [|split; [|split]].
  - intros q Hq. rewrite Hafter. by apply lookup_insert_ne.
  - intros Hun. split.
    + unfold spec.normalized, spec.recognizedHorizontal in *. cbn.
      repeat case_bool_decide; cbn; tauto.
    + rewrite Hlook, Hh. intros [= Heq]. apply Hun. rewrite <- Heq.
      apply normalized_recognized.
  - intros Hun. split.
    + unfold spec.normalized, spec.recognizedVertical in *. cbn.
      repeat case_bool_decide; cbn; tauto.
    + rewrite Hlook, Hh. intros [= Heq]. apply Hun. rewrite <- Heq.
      apply normalized_recognized.
  - intros path' newWidth' newHeight' landscape' format' Hp'.
    unfold imageProcess, overlayAndEncode.
    destruct (imaging_Open X path') as [src'|e]; [|reflexivity].
    rewrite Hp'. destruct (openWatermark X G format') as [e|[wm'|e]];
      [reflexivity| |by destruct (encode X path' _ format')].
    rewrite Hlook.
    pose proof (placeWatermark_normalizes
      (imaging.Bounds (fit_scaled X)
         (compose X G src' newWidth' newHeight' landscape' format'))
      (imaging.Bounds (fit_scaled X) wm') (spec.normalized wp)) as Hn.
    destruct (placeWatermark _ _ (spec.normalized wp)) as [pos wp'].
    cbn in Hn. subst wp'.
    destruct (encode X path' _ format'). cbn [heap].
    apply insert_id. rewrite Hlook. f_equal.
    unfold spec.normalized. cbn.
    repeat case_bool_decide; cbn; try reflexivity;
      exfalso; unfold Left, Right, Top, Bottom, Center in *; tauto.
Qed.

End Transform.

(** *** Runs of the transform on concrete setups *)



Lemma backdrop_fallback_witness :
  imagist.Backdrop examples.poster = true
  /\ imagist.imaging_Open examples.tallWorld "photo.jpg"
     = Ok (examples.photo examples.tall)
  /\ spec.assetFails examples.tallWorld examples.dev
       (imagist._diskPathBackdrop examples.dev)
  /\ imagist.imageProcess examples.tallWorld examples.dev ∅ "photo.jpg"
       100 300 false examples.poster
     = imagist.mkResult (imagist.Return None) ∅
         [imagist.Created "photo.jpg:poster";
          imagist.Encoded "photo.jpg:poster"
            (imaging.OverlayCenter
               (imaging.New 300 300 (imaging.mkNRGBA 0 29 56 0))
               (imaging.Fit (examples.photo examples.tall) 100 300
                            imaging.Lanczos))
            imaging.JPEG].
Proof.
  assert (Hback : imagist.Backdrop examples.poster = true) by reflexivity.
  assert (Hsrc : imagist.imaging_Open examples.tallWorld "photo.jpg"
                 = Ok (examples.photo examples.tall)) by reflexivity.
  assert (Hfail : spec.assetFails examples.tallWorld examples.dev
                    (imagist._diskPathBackdrop examples.dev)).
  { left. split; [reflexivity|]. exists "no such file". reflexivity. }
  split; [exact Hback|]. split; [exact Hsrc|]. split; [exact Hfail|].
  apply (proj2 (proj2 (backdrop_fallback examples.tallWorld examples.dev ∅
                         "photo.jpg" 100 300 examples.poster
                         (examples.photo examples.tall) Hback Hsrc Hfail))
               imaging.JPEG); reflexivity.
Defined.

(** C4, the claim as stated, fails on the size of the backdrop: a
    portrait 100x200 upload and an entry asking for 300x300 with a
    backdrop give the target box 100x300, into which the original is
    fitted, but the fallback backdrop is 300x300. *)
Lemma backdrop_not_target_box :
  imagist.targetSize examples.tall examples.poster = (100, 300)
  /\ imagist.isLandscape examples.tall = false
  /\ imagist.openBackdrop examples.tallWorld examples.dev = Err "no such file"
  /\ imagist.compose examples.tallWorld examples.dev
       (examples.photo examples.tall) 100 300 false examples.poster
     = imaging.OverlayCenter
         (imaging.New 300 300 imagist.fallbackColor)
         (imaging.Fit (examples.photo examples.tall) 100 300 imaging.Lanczos)
  /\ imaging.Bounds (imagist.fit_scaled examples.tallWorld)
       (imaging.New 300 300 imagist.fallbackColor)
     = image.Rect 0 0 300 300
  /\ image.Rect 0 0 300 300 <> imaging.box 100 300.
Proof. repeat split. discriminate. Qed.

Lemma unrecognized_anchor_written_back_witness :
  imagist.Watermark examples.banner = Some 1%positive
  /\ examples.heapWith examples.odd !! 1%positive = Some examples.odd
  /\ imagist.imaging_Open examples.stockedWorld "photo.jpg"
     = Ok (examples.photo examples.large)
  /\ spec.assetLoads examples.stockedWorld examples.dev
       (spec.watermarkKey examples.dev examples.banner) examples.logo
  /\ imagist.heap
       (imagist.imageProcess examples.stockedWorld examples.dev
          (examples.heapWith examples.odd) "photo.jpg" 200 100 true
          examples.banner) !! 1%positive
     = Some (imagist.mkWatermarkPosition imagist.Left imagist.Top 3 4).
Proof.
  assert (Hp : imagist.Watermark examples.banner = Some 1%positive)
    by reflexivity.
  assert (Hh : examples.heapWith examples.odd !! 1%positive
               = Some examples.odd) by reflexivity.
  assert (Hsrc : imagist.imaging_Open examples.stockedWorld "photo.jpg"
                 = Ok (examples.photo examples.large)) by reflexivity.
  assert (Hload : spec.assetLoads examples.stockedWorld examples.dev
                    (spec.watermarkKey examples.dev examples.banner)
                    examples.logo).
  { left. split; reflexivity. }
  split; [exact Hp|]. split; [exact Hh|]. split; [exact Hsrc|].
  split; [exact Hload|].
  exact (proj1 (proj2 (unrecognized_anchor_written_back
                         examples.stockedWorld examples.dev
                         (examples.heapWith examples.odd) "photo.jpg"
                         200 100 true examples.banner 1%positive examples.odd
                         (examples.photo examples.large) examples.logo
                         Hp Hh Hsrc Hload))).
Defined.

(** C10, the claim as stated, fails: the anchors 7 and 9 are none of the
    named ones, the entry is processed and its file written, but the
    watermark asset is missing and the position behind the pointer is
    left as it was. *)
Lemma unrecognized_anchor_left_alone :
  imagist.Watermark examples.banner = Some 1%positive
  /\ ~ spec.recognizedHorizontal (imagist.Horizontal examples.odd)
  /\ ~ spec.recognizedVertical (imagist.Vertical examples.odd)
  /\ imagist.ret
       (imagist.imageProcess examples.largeWorld examples.dev
          (examples.heapWith examples.odd) "photo.jpg" 200 100 true
          examples.banner)
     = imagist.Return None
  /\ imagist.disk
       (imagist.imageProcess examples.largeWorld examples.dev
          (examples.heapWith examples.odd) "photo.jpg" 200 100 true
          examples.banner)
     = [imagist.Created "photo.jpg:banner";
        imagist.Encoded "photo.jpg:banner"
          (imaging.Fill (examples.photo examples.large) 200 100
                        imaging.Center imaging.Lanczos)
          imaging.JPEG]
  /\ imagist.heap
       (imagist.imageProcess examples.largeWorld examples.dev
          (examples.heapWith examples.odd) "photo.jpg" 200 100 true
          examples.banner) !! 1%positive
     = Some examples.odd.
Proof.
  split; [reflexivity|]. split.
  { unfold spec.recognizedHorizontal. cbn. intuition discriminate. }
  split.
  { unfold spec.recognizedVertical. cbn. intuition discriminate. }
  repeat split.
Qed.

(** The whole transform on a setup with every asset present: a 400x300
    upload, the 200x100 entry and a 20x10 watermark anchored Right/Bottom
    with offsets 5 end in a file whose watermark sits at (175, 85). *)
Example banner_watermarked :
  imagist.imageProcess examples.stockedWorld examples.dev
    (examples.heapWith
       (imagist.mkWatermarkPosition imagist.Right imagist.Bottom 5 5))
    "photo.jpg" 200 100 true examples.banner
  = imagist.mkResult (imagist.Return None)
      (examples.heapWith
         (imagist.mkWatermarkPosition imagist.Right imagist.Bottom 5 5))
      [imagist.Created "photo.jpg:banner";
       imagist.Encoded "photo.jpg:banner"
         (imaging.Overlay
            (imaging.Fill (examples.photo examples.large) 200 100
                          imaging.Center imaging.Lanczos)
            examples.logo (image.mkPoint 175 85))
         imaging.JPEG].
Proof.
  reflexivity.
Qed.

(** ** The dispatcher *)

Section DispatcherInvariant.

Import imagist.

Lemma tracked_perm m keys keys' :
  keys ≡ₚ keys' -> tracked m keys -> tracked m keys'.
Proof.
  intros Hperm [Hnd Hin]. split.
  - by rewrite <- Hperm.
  - intros k Hk. apply Hin. by rewrite Hperm.
Qed.

Lemma tracked_insert m k keys :
  m !! k = None -> tracked m keys -> tracked (<[k := tt]> m) (k :: keys).
Proof.
  intros Hfree [Hnd Hin]. split.
  - apply NoDup_cons. split; [|done].
    intros Hk. apply Hin in Hk as [? Hk]. congruence.
  - intros k' [->|Hk']%elem_of_cons.
    + rewrite lookup_insert_eq. eauto.
    + destruct (decide (k = k')) as [->|Hne].
      * rewrite lookup_insert_eq. eauto.
      * rewrite lookup_insert_ne by done. by apply Hin.
Qed.

Lemma tracked_delete m k keys :
  tracked m (k :: keys) -> tracked (delete k m) keys.
Proof.
  intros [Hnd Hin]. apply NoDup_cons in Hnd as [Hk Hnd]. split; [done|].
  intros k' Hk'. rewrite lookup_delete_ne.
  - apply Hin. by apply elem_of_cons; right.
  - intros ->. done.
Qed.

Lemma invariant_listenJob st job :
  invariant st -> invariant (listenJob st job).
Proof.
  unfold invariant, listenJob. intros Hinv.
  destruct (jobs st !! FileDiskPath job) eqn:Hjob; [done|].
  unfold owned, executing in *. cbn [jobs running i_done].
  rewrite fmap_app. cbn [fmap list_fmap].
  eapply tracked_perm; [|by apply tracked_insert].
  rewrite <- !app_assoc. cbn [app]. by rewrite Permutation_middle.
Qed.

Variable X : Externals.
Variable s : Z.

Lemma invariant_step st st' : step X s st st' -> invariant st -> invariant st'.
Proof.
  intros Hstep Hinv. destruct Hstep.
  - exact Hinv.
  - by apply invariant_listenJob.
  - by apply invariant_listenJob.
  - unfold invariant, owned, executing in *. cbn [jobs running i_done].
    eapply tracked_perm; [|exact Hinv].
    rewrite H, !fmap_app, fmap_cons, <- !app_assoc. cbn [app].
    rewrite (app_assoc _ (i_done st)). rewrite <- Permutation_middle.
    rewrite (Permutation_app_comm _ [FileDiskPath j]). cbn [app].
    by rewrite <- Permutation_middle, !app_assoc.
  - unfold invariant, listenDone, owned, executing in *.
    cbn [jobs running i_done].
    apply tracked_delete. eapply tracked_perm; [|exact Hinv].
    rewrite H, !fmap_app, fmap_cons, <- !app_assoc. cbn [app].
    by rewrite <- Permutation_middle.
  - unfold invariant, listenDone, owned, executing in *.
    cbn [jobs running i_done].
    apply tracked_delete. eapply tracked_perm; [|exact Hinv].
    rewrite H. by rewrite <- Permutation_middle.
Qed.

Lemma invariant_reachable st : reachable X s st -> invariant st.
Proof.
  induction 1 as [|st st' _ IH Hstep].
  - split; [constructor|]. intros k Hk. by apply elem_of_nil in Hk.
  - by eapply invariant_step.
Qed.

(** C2.  In every state the dispatcher can reach, no file identity has
    two executions under way.  An admission request for a key already in
    the map leaves the state as it is: nothing is started, nothing is
    reported.  A request for a key not in the map enters the key and
    starts exactly one execution, and still no identity has two.  A
    completion signal removes its key and only its key. *)
Theorem one_execution_per_file (st : State) :
  reachable X s st ->
  NoDup (executing st)
  /\ (forall job,
        is_Some (jobs st !! FileDiskPath job) -> listenJob st job = st)
  /\ (forall job,
        jobs st !! FileDiskPath job = None ->
        jobs (listenJob st job) = <[FileDiskPath job := tt]> (jobs st)
        /\ running (listenJob st job) = running st ++ [job]
        /\ NoDup (executing (listenJob st job)))
  /\ (forall done,
        jobs (listenDone st done) = delete done (jobs st)
        /\ jobs (listenDone st done) !! done = None
        /\ running (listenDone st done) = running st).
Proof.
  intros Hreach. pose proof (invariant_reachable _ Hreach) as Hinv.
  assert (Hexec : forall st0, invariant st0 -> NoDup (executing st0)).
  { intros st0 [Hnd _]. unfold owned in Hnd.
    by apply NoDup_app in Hnd as [? _]. }
  split; [by apply Hexec|]. split; [|split].
  - intros job [u Hu]. unfold listenJob. by rewrite Hu.
  - intros job Hfree.
    pose proof (invariant_listenJob st job Hinv) as Hinv'.
    apply Hexec in Hinv'. revert Hinv'.
    unfold listenJob. rewrite Hfree. done.
  - intros done. cbn. split; [done|]. split; [|done].
    apply lookup_delete_eq.
Qed.

End DispatcherInvariant.

Lemma one_execution_per_file_witness :
  imagist.reachable examples.smallWorld (imagist.New []) examples.admitted
  /\ NoDup (imagist.executing examples.admitted)
  /\ imagist.listenJob examples.admitted examples.firstJob = examples.admitted.
Proof.
  assert (Hreach : imagist.reachable examples.smallWorld (imagist.New [])
                     examples.admitted).
  { apply (imagist.reachable_step _ _
             (imagist.mkState ∅ [] [examples.firstJob] [])).
    - apply (imagist.reachable_step _ _ imagist.initial).
      + apply imagist.reachable_initial.
      + apply (imagist.step_Add _ _ imagist.initial [] "photo.jpg" None true
                 examples.firstJob); [reflexivity|]. cbn. lia.
    - apply (imagist.step_listen_job _ _
               (imagist.mkState ∅ [] [examples.firstJob] [])
               examples.firstJob []).
      reflexivity. }
  split; [exact Hreach|].
  destruct (one_execution_per_file examples.smallWorld (imagist.New [])
              examples.admitted Hreach) as (Hnd & Hdrop & _).
  split; [exact Hnd|].
  apply Hdrop. exists tt. reflexivity.
Defined.

(** * Further properties of the package *)

(** ** [Add]: when a job is queued and which error comes first *)

Section ValidatorMore.

Import imagist.

Variable X : Externals.

Lemma floor_test (floor noLimit v : Z) :
  bool_decide (floor <> noLimit) && bool_decide (v < floor) = false
  <-> floor = noLimit \/ floor <= v.
Proof.
  rewrite andb_false_iff, !bool_decide_eq_false.
  destruct (decide (floor = noLimit)); split; intros; try tauto; lia.
Qed.

Lemma floor_test_true (floor noLimit v : Z) :
  bool_decide (floor <> noLimit) && bool_decide (v < floor) = true
  <-> floor <> noLimit /\ v < floor.
Proof. by rewrite andb_true_iff, !bool_decide_eq_true. Qed.

(** X1.  [Add] queues a job exactly when the buffer is an image, its
    header decodes to an accepted type and, if the floors are enforced,
    each floor is the no-limit value or is met; the job it queues carries
    the path it was given, the decoded header and the dimensions (the
    default ones for nil). *)
Theorem Add_queues_iff (buf : list Byte.byte) (path : string)
    (dimensions : option ImageDimensions) (validate : bool) (job : Job) :
  let floors := default (DefaultDimensions X) dimensions in
  Add X buf path dimensions validate = inr job
  <-> filetype_IsImage X buf = true
      /\ exists config imgType,
           image_DecodeConfig X buf = Ok (config, imgType)
           /\ spec.accepted imgType
           /\ (validate = true ->
               (MinWidth floors = NoLimit X
                \/ MinWidth floors <= image.Width config)
               /\ (MinHeight floors = NoLimit X
                   \/ MinHeight floors <= image.Height config))
           /\ job = mkJob path config floors.
Proof.
  intros floors. unfold Add. fold floors.
  destruct (filetype_IsImage X buf); cbn [negb];
    [|split; [discriminate|intros [? _]; discriminate]].
  destruct (image_DecodeConfig X buf) as [[config imgType]|e];
    [|split; [discriminate|intros (_ & c & t & ? & _); discriminate]].
  destruct (bool_decide (imgType = TypeImageJPG) || _ || _) eqn:Hty.
  2:{ split; [discriminate|]. intros (_ & c & t & [= <- <-] & Hacc & _).
      apply accepted_decide in Hacc. congruence. }
  apply accepted_decide in Hty.
  destruct validate; cbn [andb].
  - destruct (bool_decide (MinWidth floors <> NoLimit X) && _) eqn:Hw.
    { split; [discriminate|].
      intros (_ & c & t & [= <- <-] & _ & Hfl & _).
      destruct (Hfl eq_refl) as [Hw' _]. apply floor_test in Hw'. congruence. }
    destruct (bool_decide (MinHeight floors <> NoLimit X) && _) eqn:Hh.
    { split; [discriminate|].
      intros (_ & c & t & [= <- <-] & _ & Hfl & _).
      destruct (Hfl eq_refl) as [_ Hh']. apply floor_test in Hh'. congruence. }
    apply floor_test in Hw, Hh. split.
    + intros [= <-]. split; [done|]. exists config, imgType. by repeat split.
    + by intros (_ & c & t & [= <- <-] & _ & _ & ->).
  - split.
    + intros [= <-]. split; [done|]. exists config, imgType.
      repeat split; try done; discriminate.
    + by intros (_ & c & t & [= <- <-] & _ & _ & ->).
Qed.

(** X2.  The checks of [Add] come in a fixed order.  A buffer that is not
    an image gets "image type invalid" whatever else holds; a header that
    does not decode gets the decoder's error unchanged; and for an
    accepted type the width floor is tested before the height floor, each
    error naming the configured minimum: the width error is returned
    exactly when floors are enforced and the width is below a configured
    floor, the height error exactly when in addition the width passes. *)
Theorem Add_error_order (buf : list Byte.byte) (path : string)
    (dimensions : option ImageDimensions) (validate : bool) :
  let floors := default (DefaultDimensions X) dimensions in
  let result := Add X buf path dimensions validate in
  let tooNarrow config :=
    validate = true /\ MinWidth floors <> NoLimit X
    /\ image.Width config < MinWidth floors in
  let tooShort config :=
    validate = true /\ MinHeight floors <> NoLimit X
    /\ image.Height config < MinHeight floors in
  (filetype_IsImage X buf = false ->
   result = inl (Errorf "image type invalid" []))
  /\ (forall e,
        filetype_IsImage X buf = true ->
        image_DecodeConfig X buf = Err e -> result = inl (Foreign e))
  /\ (forall config imgType,
        filetype_IsImage X buf = true ->
        image_DecodeConfig X buf = Ok (config, imgType) ->
        spec.accepted imgType ->
        (result = inl (Errorf "image width less than %dpx"
                              [ArgD (MinWidth floors)])
         <-> tooNarrow config)
        /\ (result = inl (Errorf "image height less than %dpx"
                                 [ArgD (MinHeight floors)])
            <-> ~ tooNarrow config /\ tooShort config)).
Proof.
  intros floors result tooNarrow tooShort.
  unfold result, Add. fold floors. split; [|split].
  - by intros ->.
  - by intros e -> ->.
  - intros config imgType -> -> Hacc. cbn [negb].
    apply accepted_decide in Hacc. rewrite Hacc.
    unfold tooNarrow, tooShort.
    destruct validate; cbn [andb].
    2:{ split; split; try discriminate; intros; intuition discriminate. }
    destruct (bool_decide (MinWidth floors <> NoLimit X) && _) eqn:Hw.
    { apply floor_test_true in Hw.
      split; split; first [done | discriminate | tauto]. }
    pose proof Hw as Hw'. apply floor_test in Hw'.
    assert (Hnw : ~ (true = true /\ MinWidth floors <> NoLimit X
                     /\ image.Width config < MinWidth floors)).
    { intros (_ & ? & ?). destruct Hw'; [done|lia]. }
    destruct (bool_decide (MinHeight floors <> NoLimit X) && _) eqn:Hh.
    { apply floor_test_true in Hh.
      split; split; first [done | discriminate | tauto]. }
    apply floor_test in Hh.
    split; split; try discriminate; try tauto.
    intros (_ & _ & ? & ?). destruct Hh; [done|lia].
Qed.

End ValidatorMore.

Lemma Add_queues_iff_witness :
  imagist.Add examples.smallWorld [] "photo.jpg" (Some examples.floor80) true
  = inr (imagist.mkJob "photo.jpg" examples.small examples.floor80).
Proof.
  apply (proj2 (Add_queues_iff examples.smallWorld [] "photo.jpg"
                  (Some examples.floor80) true
                  (imagist.mkJob "photo.jpg" examples.small examples.floor80))).
  split; [reflexivity|]. exists examples.small, "jpeg".
  split; [reflexivity|]. split; [right; left; reflexivity|].
  split; [|reflexivity]. intros _. split.
  - right. cbn. lia.
  - left. reflexivity.
Defined.

Lemma Add_error_order_witness :
  imagist.filetype_IsImage examples.smallWorld [] = true
  /\ imagist.image_DecodeConfig examples.smallWorld []
     = Ok (examples.small, "jpeg")
  /\ spec.accepted "jpeg"
  /\ imagist.Add examples.smallWorld [] "photo.jpg" (Some examples.floor200)
       true
     = inl (Errorf "image width less than %dpx" [ArgD 200]).
Proof.
  assert (Himg : imagist.filetype_IsImage examples.smallWorld [] = true)
    by reflexivity.
  assert (Hdec : imagist.image_DecodeConfig examples.smallWorld []
                 = Ok (examples.small, "jpeg")) by reflexivity.
  assert (Hacc : spec.accepted "jpeg") by (right; left; reflexivity).
  split; [exact Himg|]. split; [exact Hdec|]. split; [exact Hacc|].
  apply (proj2 (proj1 (proj2 (proj2
           (Add_error_order examples.smallWorld [] "photo.jpg"
              (Some examples.floor200) true))
           examples.small "jpeg" Himg Hdec Hacc))).
  split; [reflexivity|]. split; [discriminate|]. cbn. lia.
Defined.

(** ** The package variables *)

Section Setters.

Import imagist.

Variable X : Externals.

Lemma call_env_known G c :
  _env G = EnvironmentDEV X \/ _env G = EnvironmentPROD X ->
  _env (call X G c) = EnvironmentDEV X
  \/ _env (call X G c) = EnvironmentPROD X.
Proof.
  intros HG. destruct c as [env|path|path]; cbn; [|done..].
  unfold SetEnv. destruct (bool_decide (env = EnvironmentDEV X)) eqn:Hd.
  - apply bool_decide_eq_true in Hd. cbn. by left.
  - destruct (bool_decide (env = EnvironmentPROD X)) eqn:Hp; cbn; [|done].
    apply bool_decide_eq_true in Hp. by right.
Qed.

(** X3.  Whatever setters are called after start-up and in whatever
    order, the environment is DEV or PROD: [SetEnv] with any other name
    changes nothing at all, and the two path setters never touch the
    environment. *)
Theorem env_always_known (calls : list Setter) :
  let G := foldl (call X) (startup X) calls in
  (_env G = EnvironmentDEV X \/ _env G = EnvironmentPROD X)
  /\ (forall env,
        env <> EnvironmentDEV X -> env <> EnvironmentPROD X ->
        call X G (CallSetEnv env) = G)
  /\ (forall path,
        _env (call X G (CallSetBackdropImage path)) = _env G
        /\ _env (call X G (CallSetWatermarkImage path)) = _env G).
Proof.
  intros G. split; [|split].
  - unfold G. induction calls as [|c calls' IH] using rev_ind.
    + by left.
    + rewrite foldl_app. cbn [foldl]. by apply call_env_known.
  - intros env Hd Hp. cbn. unfold SetEnv.
    by rewrite !bool_decide_eq_false_2.
  - done.
Qed.

End Setters.

Lemma env_always_known_witness :
  "staging" <> imagist.EnvironmentDEV examples.smallWorld
  /\ "staging" <> imagist.EnvironmentPROD examples.smallWorld
  /\ imagist.call examples.smallWorld
       (foldl (imagist.call examples.smallWorld)
              (imagist.startup examples.smallWorld)
              [imagist.CallSetEnv "prod";
               imagist.CallSetWatermarkImage "watermark"])
       (imagist.CallSetEnv "staging")
     = imagist.mkGlobals "prod" "watermark" EmptyString.
Proof.
  assert (Hd : "staging" <> imagist.EnvironmentDEV examples.smallWorld)
    by discriminate.
  assert (Hp : "staging" <> imagist.EnvironmentPROD examples.smallWorld)
    by discriminate.
  split; [exact Hd|]. split; [exact Hp|].
  exact (proj1 (proj2 (env_always_known examples.smallWorld
                         [imagist.CallSetEnv "prod";
                          imagist.CallSetWatermarkImage "watermark"]))
               "staging" Hd Hp).
Defined.

(** ** What one entry leaves behind *)

Section TransformMore.

Import imagist.

Variable X : Externals.
Variable G : Globals.

(** The three ways [encode] can end. *)
Lemma encode_cases path img format :
  let out := path +:+ ":" +:+ Name format in
  (exists e, encode X path img format = (Return (Some e), []))
  \/ (exists e, encode X path img format = (Return (Some e), [Created out]))
  \/ (exists codec,
        encode X path img format
        = (Return None, [Created out; Encoded out img codec])).
Proof.
  intros out. unfold encode. fold out.
  destruct (imaging_FormatFromFilename X path) as [codec|e]; [|eauto].
  destruct (os_Create X out) as [[]|e]; [|eauto].
  destruct (imaging_Encode X out img codec) as [e|]; eauto.
Qed.

(** How [overlayAndEncode] can end, with the heap it leaves. *)
Lemma overlayAndEncode_cases h path img format :
  let r := overlayAndEncode X G h path img format in
  let out := path +:+ ":" +:+ Name format in
  (heap r = h
   \/ exists p wp, Watermark format = Some p /\ h !! p = Some wp
                   /\ heap r = <[p := spec.normalized wp]> h)
  /\ ((ret r = Panic /\ disk r = [] /\ heap r = h
       /\ exists p, Watermark format = Some p /\ h !! p = None)
      \/ (exists e, ret r = Return (Some e)
                    /\ (disk r = [] \/ disk r = [Created out]))
      \/ (exists img' codec,
            ret r = Return None
            /\ disk r = [Created out; Encoded out img' codec]
            /\ (img' = img \/ exists wm pos, img' = imaging.Overlay img wm pos))).
Proof.
  intros r out. unfold r, overlayAndEncode.
  assert (Hplain : forall img0,
    let r0 := (let '(o, d) := encode X path img0 format in mkResult o h d) in
    heap r0 = h
    /\ ((exists e, ret r0 = Return (Some e)
                   /\ (disk r0 = [] \/ disk r0 = [Created out]))
        \/ (exists codec, ret r0 = Return None
              /\ disk r0 = [Created out; Encoded out img0 codec]))).
  { intros img0.
    destruct (encode_cases path img0 format) as [[e ->]|[[e ->]|[c ->]]];
      cbn; split; eauto 10. }
  destruct (Watermark format) as [p|].
  2:{ destruct (Hplain img) as [Hh [He|(c & ? & ?)]]; split; eauto 10. }
  destruct (openWatermark X G format) as [e|[watermark|e]].
  - cbn. split; eauto 10.
  - destruct (h !! p) as [wp|] eqn:Hp.
    2:{ cbn. split; eauto 10. }
    pose proof (placeWatermark_normalizes
      (imaging.Bounds (fit_scaled X) img)
      (imaging.Bounds (fit_scaled X) watermark) wp) as Hn.
    destruct (placeWatermark _ _ wp) as [pos wp']. cbn in Hn. subst wp'.
    destruct (encode_cases path (imaging.Overlay img watermark pos) format)
      as [[e ->]|[[e ->]|[c ->]]]; cbn; split; eauto 15.
  - destruct (Hplain img) as [Hh [He|(c & ? & ?)]]; split; eauto 10.
Qed.

(** X4.  What [imageProcess] returns tells what is on disk: it returns
    nil exactly when the variant was created and encoded at
    [<path>:<name>]; with an error nothing was encoded (at most the file
    was created and left without an image, when the encoder failed); and
    nothing is ever written anywhere else. *)
Theorem imageProcess_nil_iff_encoded (h : gmap loc WatermarkPosition)
    (path : string) (newWidth newHeight : Z) (landscape : bool)
    (format : FormatDimensions) :
  let r := imageProcess X G h path newWidth newHeight landscape format in
  let out := path +:+ ":" +:+ Name format in
  (ret r = Return None
   <-> exists img codec, disk r = [Created out; Encoded out img codec])
  /\ (forall e, ret r = Return (Some e) ->
                disk r = [] \/ disk r = [Created out])
  /\ (ret r = Panic -> disk r = [])
  /\ (forall eff, eff ∈ disk r -> effectPath eff = out).
Proof.
  intros r out. unfold r, imageProcess.
  destruct (imaging_Open X path) as [src|e0].
  2:{ cbn. repeat split; try discriminate; eauto.
      - intros (? & ? & ?); discriminate.
      - intros eff Heff. by apply elem_of_nil in Heff. }
  destruct (overlayAndEncode_cases h path
              (compose X G src newWidth newHeight landscape format) format)
    as [_ [(Hr & Hd & _)|[(e & Hr & Hd)|(img' & c & Hr & Hd & _)]]];
    fold out in Hd; rewrite Hr.
  - rewrite Hd. repeat split; try discriminate; eauto.
    + intros (? & ? & ?); discriminate.
    + intros eff Heff. by apply elem_of_nil in Heff.
  - repeat split; try discriminate; eauto.
    + intros (? & ? & Hd'). destruct Hd as [Hd|Hd]; rewrite Hd in Hd';
        discriminate.
    + intros eff Heff. destruct Hd as [Hd|Hd]; rewrite Hd in Heff.
      * by apply elem_of_nil in Heff.
      * apply list_elem_of_singleton in Heff. by subst.
  - rewrite Hd. repeat split; try discriminate; eauto.
    intros eff Heff. apply elem_of_cons in Heff as [->|Heff]; [done|].
    apply list_elem_of_singleton in Heff. by subst.
Qed.

Lemma imageProcess_heap h path newWidth newHeight landscape format :
  let r := imageProcess X G h path newWidth newHeight landscape format in
  (heap r = h
   \/ exists p wp, Watermark format = Some p /\ h !! p = Some wp
                   /\ heap r = <[p := spec.normalized wp]> h)
  /\ (ret r = Panic ->
      exists p, Watermark format = Some p /\ h !! p = None).
Proof.
  intros r. unfold r, imageProcess.
  destruct (imaging_Open X path) as [src|e0]; [|cbn; split; [eauto|done]].
  destruct (overlayAndEncode_cases h path
              (compose X G src newWidth newHeight landscape format) format)
    as [Hh [(Hr & _ & _ & Hp)|[(e & Hr & _)|(img' & c & Hr & _)]]];
    (split; [exact Hh|]); rewrite Hr; done.
Qed.

Lemma normalized_idempotent wp :
  spec.normalized (spec.normalized wp) = spec.normalized wp.
Proof.
  unfold spec.normalized. cbn.
  repeat case_bool_decide; cbn; try reflexivity;
    exfalso; unfold Left, Right, Top, Bottom, Center in *; tauto.
Qed.

Lemma normalizes_refl h : spec.normalizes h h.
Proof. intros p. by left. Qed.

Lemma normalizes_insert h p wp :
  h !! p = Some wp -> spec.normalizes h (<[p := spec.normalized wp]> h).
Proof.
  intros Hp q. destruct (decide (p = q)) as [<-|Hne].
  - right. exists wp. by rewrite lookup_insert_eq.
  - left. by rewrite lookup_insert_ne.
Qed.

Lemma normalizes_trans h h' h'' :
  spec.normalizes h h' -> spec.normalizes h' h'' -> spec.normalizes h h''.
Proof.
  intros H1 H2 p. destruct (H2 p) as [->|(wp' & Hp' & ->)]; [apply H1|].
  destruct (H1 p) as [Heq|(wp & Hp & Hn)].
  - right. exists wp'. by rewrite <- Heq.
  - right. exists wp. split; [done|].
    rewrite Hp' in Hn. injection Hn as ->. by rewrite normalized_idempotent.
Qed.


Lemma iteration_heap j h format :
  let r := iteration X G j h format in
  spec.normalizes h (heap r)
  /\ (ret r = Panic ->
      exists p, Watermark format = Some p /\ h !! p = None).
Proof.
  intros r. unfold r, iteration.
  destruct (skipped format); [split; [apply normalizes_refl|done]|].
  destruct (targetSize (Config j) format) as [newWidth newHeight].
  destruct (imageProcess_heap h (FileDiskPath j) newWidth newHeight
              (isLandscape (Config j)) format)
    as [[->|(p & wp & _ & Hp & ->)] Hpanic]; split; try done.
  - apply normalizes_refl.
  - by apply normalizes_insert.
Qed.

Lemma rangeFormats_heap j h formats :
  spec.normalizes h (rangeFormats X G j h formats).1.1.
Proof.
  revert h. induction formats as [|format rest IH]; intros h.
  - apply normalizes_refl.
  - cbn [rangeFormats].
    pose proof (iteration_heap j h format) as [Hn _].
    destruct (ret (iteration X G j h format)); [|done].
    specialize (IH (heap (iteration X G j h format))).
    destruct (rangeFormats X G j _ rest) as [[h' d] c]. cbn in *.
    by eapply normalizes_trans.
Qed.



Lemma execute_normalizes h j :
  spec.normalizes h (heapAfter (execute X G h j)).
Proof.
  unfold execute.
  pose proof (rangeFormats_heap j h (Formats (Dimensions j))) as Hn.
  by destruct (rangeFormats X G j h _) as [[h' d] c].
Qed.

(** X6.  The only thing a job does to the caller's watermark positions
    is to normalise anchors: after [execute] every position is either
    untouched or has its unrecognised anchors replaced by Left and Top,
    and its offsets are what they were. *)
Theorem execute_only_normalizes (h : gmap loc WatermarkPosition) (j : Job)
    (p : loc) :
  let after := heapAfter (execute X G h j) in
  (after !! p = h !! p
   \/ exists wp, h !! p = Some wp /\ after !! p = Some (spec.normalized wp))
  /\ (forall wp wp', h !! p = Some wp -> after !! p = Some wp' ->
      OffsetX wp' = OffsetX wp /\ OffsetY wp' = OffsetY wp
      /\ (spec.recognizedHorizontal (Horizontal wp) ->
          Horizontal wp' = Horizontal wp)
      /\ (spec.recognizedVertical (Vertical wp) ->
          Vertical wp' = Vertical wp)).
Proof.
  intros after.
  pose proof (execute_normalizes h j : spec.normalizes h after) as Hn.
  split; [apply Hn|].
  intros wp wp' Hwp Hwp'.
  destruct (Hn p) as [Heq|(wp0 & Hp0 & Hp1)].
  - assert (wp' = wp) as -> by congruence. done.
  - assert (wp0 = wp) as -> by congruence.
    assert (wp' = spec.normalized wp) as -> by congruence.
    unfold spec.normalized, spec.recognizedHorizontal,
      spec.recognizedVertical. cbn.
    repeat split; intros Hrec; repeat case_bool_decide; cbn; try done;
      exfalso; tauto.
Qed.


End TransformMore.

(** ** What a job leaves behind *)

Section ExecuteMore.

Import imagist.

Variable X : Externals.
Variable G : Globals.

Lemma append_nonempty_neq (s t : string) : t <> EmptyString -> s +:+ t <> s.
Proof.
  intros Ht. induction s as [|a s IH]; cbn; [done|].
  intros [= Heq]. by apply IH.
Qed.

Lemma iteration_disk_path j h format eff :
  eff ∈ disk (iteration X G j h format) ->
  skipped format = false
  /\ effectPath eff = FileDiskPath j +:+ ":" +:+ Name format.
Proof.
  unfold iteration. destruct (skipped format).
  { cbn. intros Heff. by apply elem_of_nil in Heff. }
  destruct (targetSize (Config j) format) as [newWidth newHeight].
  intros Heff. split; [done|]. revert Heff. unfold imageProcess.
  destruct (imaging_Open X (FileDiskPath j)) as [src|e0].
  2:{ cbn. intros Heff. by apply elem_of_nil in Heff. }
  destruct (overlayAndEncode_cases X G h (FileDiskPath j)
              (compose X G src newWidth newHeight (isLandscape (Config j))
                       format) format)
    as [_ [(_ & Hd & _)|[(e & _ & [Hd|Hd])|(img' & c & _ & Hd & _)]]];
    rewrite Hd; intros Heff.
  - by apply elem_of_nil in Heff.
  - by apply elem_of_nil in Heff.
  - apply list_elem_of_singleton in Heff. by subst.
  - apply elem_of_cons in Heff as [->|Heff]; [done|].
    apply list_elem_of_singleton in Heff. by subst.
Qed.

Lemma rangeFormats_disk_path j h formats eff :
  eff ∈ (rangeFormats X G j h formats).1.2 ->
  exists format,
    format ∈ formats /\ skipped format = false
    /\ effectPath eff = FileDiskPath j +:+ ":" +:+ Name format.
Proof.
  revert h. induction formats as [|format rest IH]; intros h.
  { cbn. intros Heff. by apply elem_of_nil in Heff. }
  cbn [rangeFormats].
  pose proof (iteration_disk_path j h format eff) as Hhead.
  destruct (ret (iteration X G j h format)).
  - specialize (IH (heap (iteration X G j h format))).
    destruct (rangeFormats X G j _ rest) as [[h' d] c]. cbn in *.
    intros [Heff|Heff]%elem_of_app.
    + exists format. split; [by apply elem_of_cons; left|by apply Hhead].
    + destruct (IH Heff) as (f & Hf & Hrest).
      exists f. split; [by apply elem_of_cons; right|done].
  - cbn. intros Heff. exists format.
    split; [by apply elem_of_cons; left|by apply Hhead].
Qed.

(** X8.  Every file a job touches is the variant [<path>:<name>] of one
    of its entries with a non-empty name and positive size; in particular
    the job never writes to the uploaded file itself. *)
Theorem execute_writes_variants (h : gmap loc WatermarkPosition) (j : Job)
    (eff : Effect) :
  eff ∈ written (execute X G h j) ->
  (exists format,
     format ∈ Formats (Dimensions j)
     /\ Name format <> EmptyString /\ 0 < Width format /\ 0 < Height format
     /\ effectPath eff = FileDiskPath j +:+ ":" +:+ Name format)
  /\ effectPath eff <> FileDiskPath j.
Proof.
  unfold execute.
  pose proof (rangeFormats_disk_path j h (Formats (Dimensions j)) eff) as Hp.
  destruct (rangeFormats X G j h _) as [[h' d] c]. cbn in *.
  intros Heff. destruct (Hp Heff) as (format & Hin & Hskip & Hpath).
  unfold skipped in Hskip.
  apply orb_false_iff in Hskip as [Hskip Hh].
  apply orb_false_iff in Hskip as [Hn Hw].
  apply bool_decide_eq_false in Hn, Hw, Hh.
  split.
  - exists format. repeat split; try done; lia.
  - rewrite Hpath. by apply append_nonempty_neq.
Qed.

Lemma rangeFormats_app j h formats1 formats2 :
  rangeFormats X G j h (formats1 ++ formats2)
  = let '(h1, d1, c1) := rangeFormats X G j h formats1 in
    if c1 then
      let '(h2, d2, c2) := rangeFormats X G j h1 formats2 in
      (h2, d1 ++ d2, c2)
    else (h1, d1, false).
Proof.
  revert h. induction formats1 as [|format rest IH]; intros h.
  - cbn. by destruct (rangeFormats X G j h formats2) as [[h2 d2] c2].
  - cbn [app rangeFormats]. destruct (ret (iteration X G j h format)).
    + rewrite IH.
      destruct (rangeFormats X G j _ rest) as [[h1 d1] c1].
      destruct c1; [|done].
      destruct (rangeFormats X G j h1 formats2) as [[h2 d2] c2].
      by rewrite app_assoc.
    + reflexivity.
Qed.

(** X9.  The entries of a job are processed one after the other and an
    error of one entry is not carried to the next: a job over two lists
    of entries in a row does what the job over the first list does and
    then, from the heap that one left, what the job over the second list
    does; its files are the files of the first followed by the files of
    the second. *)
Theorem execute_concat (h : gmap loc WatermarkPosition) (path : string)
    (config : image.Config) (minWidth minHeight : Z)
    (formats1 formats2 : list FormatDimensions) :
  let job formats :=
    mkJob path config (mkImageDimensions minWidth minHeight formats) in
  let first := execute X G h (job formats1) in
  let second := execute X G (heapAfter first) (job formats2) in
  done first = Some path ->
  execute X G h (job (formats1 ++ formats2))
  = mkExecution (heapAfter second) (written first ++ written second)
                (done second).
Proof.
  intros job first second. unfold second, first, execute.
  cbn [job Dimensions Formats FileDiskPath].
  rewrite (rangeFormats_ext X G (job (formats1 ++ formats2)) (job formats1))
    by done.
  rewrite rangeFormats_app.
  destruct (rangeFormats X G (job formats1) h formats1) as [[h1 d1] c1].
  cbn [heapAfter written done]. destruct c1; [|discriminate]. intros _.
  rewrite (rangeFormats_ext X G (job formats1) (job formats2)) by done.
  by destruct (rangeFormats X G (job formats2) h1 formats2) as [[h2 d2] c2].
Qed.

End ExecuteMore.

(** ** Size of the variants and place of the watermark *)

Section Sizes.

Import imagist.

Variable X : Externals.
Variable G : Globals.

Local Abbreviation Bounds := (imaging.Bounds (fit_scaled X)).

Lemma Bounds_Overlay_box img wm pos w h :
  0 < w -> 0 < h -> GoInt.in_range w -> GoInt.in_range h ->
  Bounds img = imaging.box w h ->
  Bounds (imaging.Overlay img wm pos) = imaging.box w h.
Proof.
  intros Hw Hh Hrw Hrh Hb. cbn [imaging.Bounds]. rewrite Hb.
  by rewrite Dx_box, Dy_box.
Qed.

Lemma compose_Bounds src newWidth newHeight landscape format :
  0 < newWidth -> 0 < newHeight ->
  0 < Width format -> 0 < Height format ->
  GoInt.in_range (Width format) -> GoInt.in_range (Height format) ->
  imaging.empty (Bounds src) = false ->
  (forall back, openBackdrop X G = Ok back ->
                imaging.empty (Bounds back) = false) ->
  Bounds (compose X G src newWidth newHeight landscape format)
  = if Backdrop format && negb landscape
    then imaging.box (Width format) (Height format)
    else imaging.box newWidth newHeight.
Proof.
  intros Hnw Hnh Hw Hh Hrw Hrh Hsrc Hback. unfold compose.
  destruct (Backdrop format && negb landscape).
  - cbn [imaging.Bounds].
    assert (Hb : forall back,
      Bounds back = imaging.box (Width format) (Height format) ->
      imaging.box (image.Dx (Bounds back)) (image.Dy (Bounds back))
      = imaging.box (Width format) (Height format)).
    { intros back ->. by rewrite Dx_box, Dy_box. }
    destruct (openBackdrop X G) as [back|e] eqn:Hopen; apply Hb.
    + cbn [imaging.Bounds]. rewrite (Hback back) by done.
      by rewrite !bool_decide_eq_false_2 by lia.
    + cbn [imaging.Bounds]. by rewrite !bool_decide_eq_false_2 by lia.
  - cbn [imaging.Bounds]. rewrite Hsrc.
    by rewrite !bool_decide_eq_false_2 by lia.
Qed.

(** X10.  Size of what is written.  For an entry that is not skipped, a
    non-empty original and sizes that are Go integers, every variant
    [execute] encodes for the entry is exactly as wide as the smaller of
    the original and the requested width and as high as the requested
    height; on the backdrop path it has exactly the requested width and
    height.  A watermark does not change the size. *)
Theorem variant_size (j : Job) (h : gmap loc WatermarkPosition)
    (format : FormatDimensions) (src : imaging.Image) :
  skipped format = false ->
  GoInt.in_range (Width format) -> GoInt.in_range (Height format) ->
  GoInt.in_range (image.Width (Config j)) -> 0 < image.Width (Config j) ->
  imaging_Open X (FileDiskPath j) = Ok src ->
  imaging.empty (Bounds src) = false ->
  (forall back, openBackdrop X G = Ok back ->
                imaging.empty (Bounds back) = false) ->
  forall out img codec,
    Encoded out img codec ∈ disk (iteration X G j h format) ->
    Bounds img
    = if Backdrop format && negb (isLandscape (Config j))
      then imaging.box (Width format) (Height format)
      else imaging.box (Z.min (image.Width (Config j)) (Width format))
                       (Height format).
Proof.
  intros Hskip Hrw Hrh Hrc Hcw Hopen Hsrc Hback out img codec.
  pose proof Hskip as Hpos. unfold skipped in Hpos.
  apply orb_false_iff in Hpos as [Hpos Hh].
  apply orb_false_iff in Hpos as [_ Hw].
  apply bool_decide_eq_false in Hw, Hh.
  unfold iteration, imageProcess. rewrite Hskip.
  assert (Hts : targetSize (Config j) format
                = (Z.min (image.Width (Config j)) (Width format),
                   Height format)).
  { unfold targetSize. f_equal.
    - case_bool_decide; lia.
    - by rewrite bool_decide_eq_false_2 by lia. }
  rewrite Hts, Hopen.
  set (newWidth := Z.min (image.Width (Config j)) (Width format)).
  assert (Hnw : 0 < newWidth) by (unfold newWidth; lia).
  assert (Hrn : GoInt.in_range newWidth).
  { unfold newWidth, GoInt.in_range in *. lia. }
  pose proof (compose_Bounds src newWidth (Height format)
                (isLandscape (Config j)) format
                Hnw ltac:(lia) ltac:(lia) ltac:(lia) Hrw Hrh Hsrc Hback) as Hb.
  set (composed := compose X G src newWidth (Height format)
                           (isLandscape (Config j)) format) in *.
  destruct (overlayAndEncode_cases X G h (FileDiskPath j) composed format)
    as [_ [(_ & Hd & _)|[(e & _ & [Hd|Hd])|(img' & c & _ & Hd & Himg)]]];
    rewrite Hd; intros Hin.
  - by apply elem_of_nil in Hin.
  - by apply elem_of_nil in Hin.
  - apply list_elem_of_singleton in Hin. discriminate.
  - apply elem_of_cons in Hin as [Hin|Hin]; [discriminate|].
    apply list_elem_of_singleton in Hin. injection Hin as _ -> _.
    destruct Himg as [->|(wm & pos & ->)]; [exact Hb|].
    destruct (Backdrop format && negb (isLandscape (Config j)));
      apply Bounds_Overlay_box; try done; lia.
Qed.

(** X11.  A watermark no larger than the background, anchored with
    offsets that leave it room (between 0 and the free space for the
    edge anchors, 0 for Center), is placed entirely inside the
    background: the placement point is non-negative and the watermark
    ends no further than the background does, on both axes. *)
Theorem watermark_inside (bgBounds watermarkBounds : image.Rectangle)
    (wp : WatermarkPosition) :
  let bgW := image.Dx bgBounds in
  let bgH := image.Dy bgBounds in
  let wmW := image.Dx watermarkBounds in
  let wmH := image.Dy watermarkBounds in
  let pos := (placeWatermark bgBounds watermarkBounds wp).1 in
  image.Min bgBounds = image.ZP ->
  0 <= wmW <= bgW -> 0 <= wmH <= bgH ->
  0 <= OffsetX wp <= bgW - wmW -> 0 <= OffsetY wp <= bgH - wmH ->
  (Horizontal wp = Center -> OffsetX wp = 0) ->
  (Vertical wp = Center -> OffsetY wp = 0) ->
  0 <= image.X pos /\ image.X pos + wmW <= bgW
  /\ 0 <= image.Y pos /\ image.Y pos + wmH <= bgH.
Proof.
  intros bgW bgH wmW wmH pos HMin HwmW HwmH Hox Hoy Hcx Hcy.
  assert (HbW : GoInt.in_range bgW) by apply wrap_range.
  assert (HbH : GoInt.in_range bgH) by apply wrap_range.
  assert (Hx : image.X pos
               = GoInt.wrap (image.X (spec.placement bgW 0 wmW 0 wp))
             /\ image.Y pos
                = GoInt.wrap (image.Y (spec.placement 0 bgH 0 wmH wp))).
  { unfold pos, placeWatermark, bgW, bgH, wmW, wmH.
    rewrite switchHorizontal_spec, switchVertical_spec by done.
    split; reflexivity. }
  destruct Hx as [-> ->]. unfold spec.placement. cbn [image.X image.Y].
  assert (Hq : forall a, 0 <= a -> a ÷ 2 = a / 2).
  { intros a Ha. apply Z.quot_div_nonneg; lia. }
  rewrite !Hq by lia.
  set (x := if bool_decide (Horizontal wp = Right) then _ else _).
  set (y := if bool_decide (Vertical wp = Bottom) then _ else _).
  assert (Hx : 0 <= x <= bgW - wmW).
  { unfold x. repeat case_bool_decide;
      try match goal with
          | H : Horizontal wp = Center |- _ => specialize (Hcx H)
          end;
      Z.div_mod_to_equations; lia. }
  assert (Hy : 0 <= y <= bgH - wmH).
  { unfold y. repeat case_bool_decide;
      try match goal with
          | H : Vertical wp = Center |- _ => specialize (Hcy H)
          end;
      Z.div_mod_to_equations; lia. }
  assert (Hin : forall z b, GoInt.in_range b -> 0 <= z <= b ->
                            GoInt.wrap z = z).
  { intros z b Hb Hz. apply wrap_in_range.
    unfold GoInt.in_range, GoInt.min_int in *. cbn in *. lia. }
  rewrite (Hin x bgW), (Hin y bgH) by (done || lia). lia.
Qed.

End Sizes.

(** ** Running a job again *)

Section Again.

Import imagist.

Variable X : Externals.
Variable G : Globals.

(** The normalised anchors place the watermark where the original ones
    did. *)
Lemma placeWatermark_normalized bgBounds watermarkBounds wp :
  placeWatermark bgBounds watermarkBounds (spec.normalized wp)
  = placeWatermark bgBounds watermarkBounds wp.
Proof.
  destruct wp as [ho ve ox oy].
  unfold placeWatermark, switchHorizontal, switchVertical, spec.normalized.
  cbn [Horizontal Vertical OffsetX OffsetY].
  destruct (bool_decide (ho = Left)) eqn:Hl;
    destruct (bool_decide (ho = Right)) eqn:Hr;
    destruct (bool_decide (ho = Center)) eqn:Hc;
    destruct (bool_decide (ve = Top)) eqn:Ht;
    destruct (bool_decide (ve = Bottom)) eqn:Hb;
    destruct (bool_decide (ve = Center)) eqn:Hvc;
    cbn [orb]; rewrite ?Hl, ?Hr, ?Hc, ?Ht, ?Hb, ?Hvc; reflexivity.
Qed.

(** A heap on which the run has already been (or one normalised further)
    is left as it is by the same entry, with the same outcome. *)
Lemma overlayAndEncode_again h h' path img format :
  spec.normalizes (heap (overlayAndEncode X G h path img format)) h' ->
  overlayAndEncode X G h' path img format
  = mkResult (ret (overlayAndEncode X G h path img format)) h'
             (disk (overlayAndEncode X G h path img format)).
Proof.
  unfold overlayAndEncode.
  destruct (Watermark format) as [p|].
  2:{ by destruct (encode X path img format). }
  destruct (openWatermark X G format) as [e|[watermark|e]].
  - done.
  - destruct (h !! p) as [wp|] eqn:Hp.
    + pose proof (placeWatermark_normalizes
        (imaging.Bounds (fit_scaled X) img)
        (imaging.Bounds (fit_scaled X) watermark) wp) as Hn.
      destruct (placeWatermark _ _ wp) as [pos wp'] eqn:Hplace.
      cbn in Hn. subst wp'.
      destruct (encode X path (imaging.Overlay img watermark pos) format)
        as [o d] eqn:Henc.
      cbn [heap ret disk]. intros Hnorm.
      assert (Hp' : h' !! p = Some (spec.normalized wp)).
      { destruct (Hnorm p) as [Heq|(wp0 & Hp0 & Hp1)].
        - by rewrite Heq, lookup_insert_eq.
        - rewrite lookup_insert_eq in Hp0. injection Hp0 as <-.
          by rewrite Hp1, normalized_idempotent. }
      rewrite Hp', placeWatermark_normalized, Hplace, Henc.
      f_equal. by apply insert_id.
    + cbn [heap ret disk]. intros Hnorm.
      assert (Hp' : h' !! p = None).
      { destruct (Hnorm p) as [Heq|(wp0 & Hp0 & _)]; congruence. }
      by rewrite Hp'.
  - by destruct (encode X path img format).
Qed.

Lemma iteration_again j h h' format :
  spec.normalizes (heap (iteration X G j h format)) h' ->
  iteration X G j h' format
  = mkResult (ret (iteration X G j h format)) h'
             (disk (iteration X G j h format)).
Proof.
  unfold iteration. destruct (skipped format); [done|].
  destruct (targetSize (Config j) format) as [newWidth newHeight].
  unfold imageProcess.
  destruct (imaging_Open X (FileDiskPath j)) as [src|e0]; [|done].
  apply overlayAndEncode_again.
Qed.

Lemma rangeFormats_again j h h' formats :
  spec.normalizes (rangeFormats X G j h formats).1.1 h' ->
  rangeFormats X G j h' formats
  = (h', (rangeFormats X G j h formats).1.2,
     (rangeFormats X G j h formats).2).
Proof.
  revert h. induction formats as [|format rest IH]; intros h; [done|].
  cbn [rangeFormats].
  pose proof (iteration_again j h h' format) as Hhead.
  destruct (ret (iteration X G j h format)) eqn:Hret.
  - pose proof (rangeFormats_heap X G j (heap (iteration X G j h format)) rest)
      as Hrest.
    specialize (IH (heap (iteration X G j h format))).
    destruct (rangeFormats X G j (heap (iteration X G j h format)) rest)
      as [[h1 d1] c1]. cbn in *. intros Hnorm.
    rewrite Hhead by (by eapply normalizes_trans).
    cbn [ret heap disk]. by rewrite IH.
  - cbn. intros Hnorm. rewrite Hhead by done. by cbn [ret heap disk].
Qed.

(** X12.  Running a job again changes nothing: started from the heap the
    first run left, [execute] writes the same files, sends the same
    completion and leaves that heap as it is.  The anchors the first run
    rewrote put the watermark where the unrecognised ones did. *)
Theorem execute_twice (h : gmap loc WatermarkPosition) (j : Job) :
  execute X G (heapAfter (execute X G h j)) j = execute X G h j.
Proof.
  unfold execute.
  pose proof (rangeFormats_again j h
                (rangeFormats X G j h (Formats (Dimensions j))).1.1
                (Formats (Dimensions j)) (normalizes_refl _)) as Hagain.
  destruct (rangeFormats X G j h (Formats (Dimensions j))) as [[h1 d1] c1].
  cbn in *. by rewrite Hagain.
Qed.

End Again.

(** ** More on the dispatcher *)

Section DispatcherMore.

Import imagist.

Variable X : Externals.
Variable s : Z.

Lemma covered_listenJob st job : covered st -> covered (listenJob st job).
Proof.
  unfold covered, listenJob. intros Hcov.
  destruct (jobs st !! FileDiskPath job) eqn:Hjob; [done|].
  unfold owned, executing in *. cbn [jobs running i_done].
  intros k Hk. rewrite fmap_app. cbn [fmap list_fmap].
  rewrite !elem_of_app, list_elem_of_singleton.
  destruct (decide (FileDiskPath job = k)) as [<-|Hne]; [tauto|].
  rewrite lookup_insert_ne in Hk by done. specialize (Hcov k Hk).
  apply elem_of_app in Hcov. tauto.
Qed.

Lemma covered_delete (m : gmap string unit) (k : string)
    (keys keys' : list string) :
  keys ≡ₚ k :: keys' ->
  (forall k', is_Some (m !! k') -> k' ∈ keys) ->
  forall k', is_Some (delete k m !! k') -> k' ∈ keys'.
Proof.
  intros Hperm Hcov k' Hk'.
  destruct (decide (k = k')) as [<-|Hne].
  - rewrite lookup_delete_eq in Hk'. by destruct Hk'.
  - rewrite lookup_delete_ne in Hk' by done.
    specialize (Hcov k' Hk'). rewrite Hperm in Hcov.
    apply elem_of_cons in Hcov as [->|Hin]; done.
Qed.

Lemma covered_step st st' : step X s st st' -> covered st -> covered st'.
Proof.
  intros Hstep Hcov. destruct Hstep.
  - exact Hcov.
  - by apply covered_listenJob.
  - by apply covered_listenJob.
  - unfold covered, owned, executing in *. cbn [jobs running i_done].
    intros k Hk. specialize (Hcov k Hk). rewrite H in Hcov.
    rewrite fmap_app, fmap_cons in Hcov. rewrite fmap_app.
    rewrite !elem_of_app, elem_of_cons in Hcov.
    rewrite !elem_of_app, list_elem_of_singleton. tauto.
  - unfold covered, listenDone, owned, executing in *.
    cbn [jobs running i_done].
    apply (covered_delete _ _ (owned st)); [|exact Hcov].
    unfold owned, executing. rewrite H, !fmap_app, fmap_cons, <- !app_assoc.
    cbn [app]. by rewrite <- Permutation_middle.
  - unfold covered, listenDone, owned, executing in *.
    cbn [jobs running i_done].
    apply (covered_delete _ _ (owned st)); [|exact Hcov].
    unfold owned, executing. rewrite H. by rewrite <- Permutation_middle.
Qed.

Lemma covered_reachable st : reachable X s st -> covered st.
Proof.
  induction 1 as [|st st' _ IH Hstep].
  - intros k [u Hk]. cbn in Hk. by rewrite lookup_empty in Hk.
  - by eapply covered_step.
Qed.

(** X13.  The map of [listen] holds exactly the keys that have an
    execution running or a completion signal waiting to be read, each
    once: no key stays behind once its signal has been read, and the
    number of keys in the map is the number of such executions. *)
Theorem inflight_exact (st : State) :
  reachable X s st ->
  (forall k, is_Some (jobs st !! k) <-> k ∈ owned st)
  /\ size (jobs st) = length (owned st).
Proof.
  intros Hreach.
  pose proof (invariant_reachable X s st Hreach) as [Hnd Hin].
  pose proof (covered_reachable st Hreach) as Hcov.
  assert (Hiff : forall k, is_Some (jobs st !! k) <-> k ∈ owned st)
    by (intros k; split; [apply Hcov|apply Hin]).
  split; [exact Hiff|].
  assert (Hdom : dom (jobs st) = list_to_set (owned st)).
  { apply set_eq. intros k. rewrite elem_of_dom, elem_of_list_to_set.
    apply Hiff. }
  rewrite <- size_dom, Hdom. by apply size_list_to_set.
Qed.



Lemma Add_sentByAdd buf path dimensions validate job :
  Add X buf path dimensions validate = inr job -> sentByAdd X job.
Proof.
  intros Hadd. exists buf, dimensions, validate.
  pose proof (Add_inr X _ _ _ _ _ Hadd) as (_ & c & t & _ & _ & ->).
  exact Hadd.
Qed.

Lemma validated_step st st' :
  step X s st st' ->
  Forall (sentByAdd X) (i_jobs st ++ running st) ->
  Forall (sentByAdd X) (i_jobs st' ++ running st').
Proof.
  intros Hstep Hall. destruct Hstep; unfold listenJob, listenDone;
    cbn [i_jobs running jobs].
  - apply Forall_app in Hall as [Hq Hr].
    apply Forall_app. split; [|done]. apply Forall_app. split; [done|].
    apply Forall_singleton. by eapply Add_sentByAdd.
  - destruct (jobs st !! FileDiskPath job); [done|]. cbn [i_jobs running].
    apply Forall_app in Hall as [Hq Hr].
    apply Forall_app. split; [done|]. apply Forall_app. split; [done|].
    apply Forall_singleton. by eapply Add_sentByAdd.
  - rewrite H in Hall. apply Forall_app in Hall as [Hq Hr].
    apply Forall_cons in Hq as [Hjob Hq].
    destruct (jobs st !! FileDiskPath job); cbn [i_jobs running].
    + apply Forall_app. done.
    + apply Forall_app. split; [done|]. apply Forall_app. split; [done|].
      by apply Forall_singleton.
  - apply Forall_app in Hall as [Hq Hr]. rewrite H in Hr.
    apply Forall_app in Hr as [Hb Ha]. apply Forall_cons in Ha as [_ Ha].
    apply Forall_app. split; [done|]. apply Forall_app. done.
  - apply Forall_app in Hall as [Hq Hr]. rewrite H in Hr.
    apply Forall_app in Hr as [Hb Ha]. apply Forall_cons in Ha as [_ Ha].
    apply Forall_app. split; [done|]. apply Forall_app. done.
  - done.
Qed.

(** X15.  Only validated uploads are ever executed: every job that waits
    on [i.jobs] or is being executed is one that a call of [Add]
    accepted, so its buffer was an image whose header decoded to jpg,
    jpeg or png, and it carries that header. *)
Theorem only_validated_jobs_run (st : State) (job : Job) :
  reachable X s st ->
  job ∈ i_jobs st \/ job ∈ running st ->
  exists buf dimensions validate config imgType,
    Add X buf (FileDiskPath job) dimensions validate = inr job
    /\ filetype_IsImage X buf = true
    /\ image_DecodeConfig X buf = Ok (config, imgType)
    /\ spec.accepted imgType
    /\ Config job = config.
Proof.
  intros Hreach Hin.
  assert (Hall : Forall (sentByAdd X) (i_jobs st ++ running st)).
  { clear Hin. induction Hreach as [|st st' _ IH Hstep].
    - constructor.
    - by apply (validated_step st st'). }
  rewrite Forall_forall in Hall.
  destruct (Hall job) as (buf & dimensions & validate & Hadd).
  { apply elem_of_app. tauto. }
  exists buf, dimensions, validate.
  pose proof (Add_inr X _ _ _ _ _ Hadd) as (Himg & c & t & Hdec & Hacc & Hjob).
  exists c, t. repeat split; try done. by rewrite Hjob.
Qed.

(** X16.  A completion signal frees its key: once [listen] has read the
    signal for a key, the key is out of the map, no execution owns it any
    more, and the next admission request for it starts an execution
    again. *)
Theorem key_released_on_completion (st : State) (key : string)
    (rest : list string) :
  reachable X s st ->
  i_done st = key :: rest ->
  let st' :=
    listenDone (mkState (jobs st) (running st) (i_jobs st) rest) key in
  reachable X s st'
  /\ jobs st' !! key = None
  /\ (key ∉ owned st')
  /\ (forall job, FileDiskPath job = key ->
        running (listenJob st' job) = running st' ++ [job]
        /\ is_Some (jobs (listenJob st' job) !! key)).
Proof.
  intros Hreach Hdone st'.
  assert (Hreach' : reachable X s st').
  { eapply reachable_step; [exact Hreach|]. by apply step_listen_done. }
  assert (Hfree : jobs st' !! key = None) by apply lookup_delete_eq.
  split; [exact Hreach'|]. split; [exact Hfree|]. split.
  - intros Hown.
    pose proof (invariant_reachable X s st' Hreach') as [_ Hin].
    destruct (Hin key Hown) as [u Hu]. congruence.
  - intros job <-. unfold listenJob. rewrite Hfree. cbn [running jobs].
    split; [done|]. rewrite lookup_insert_eq. eauto.
Qed.

End DispatcherMore.

(** ** The exported positions *)

Section Presets.

Import imagist.

Variable X : Externals.
Variable G : Globals.

(** X17.  The exported positions are safe to share: a job never rewrites
    one of them, whatever its entries and however its assets load, since
    each uses named anchors only. *)
Theorem presets_never_rewritten (h : gmap loc WatermarkPosition) (j : Job)
    (p : loc) (preset : WatermarkPosition) :
  preset ∈ presets ->
  h !! p = Some preset ->
  heapAfter (execute X G h j) !! p = Some preset.
Proof.
  intros Hin Hp.
  assert (Hnorm : spec.normalized preset = preset).
  { unfold presets in Hin.
    repeat (apply elem_of_cons in Hin as [->|Hin]; [reflexivity|]).
    by apply elem_of_nil in Hin. }
  destruct (execute_normalizes X G h j p) as [->|(wp & Hwp & ->)]; [done|].
  congruence.
Qed.

End Presets.

(** ** Runs of the further properties on concrete setups *)

Ltac in_range_now := split; vm_compute; discriminate.

Ltac reach_admitted :=
  apply (imagist.reachable_step _ _
           (imagist.mkState ∅ [] [examples.firstJob] []));
  [ apply (imagist.reachable_step _ _ imagist.initial);
    [ apply imagist.reachable_initial
    | apply (imagist.step_Add _ _ imagist.initial [] "photo.jpg" None true
               examples.firstJob); reflexivity ]
  | apply (imagist.step_listen_job _ _
             (imagist.mkState ∅ [] [examples.firstJob] [])
             examples.firstJob []); reflexivity ].

Ltac reach_finished :=
  apply (imagist.reachable_step _ _ examples.admitted);
  [ reach_admitted
  | apply (imagist.step_execute_done _ _ examples.admitted
             [] examples.firstJob []); reflexivity ].

Lemma imageProcess_nil_iff_encoded_witness :
  imagist.ret (imagist.imageProcess examples.smallWorld examples.dev ∅
                 "photo.jpg" 50 200 false examples.thumb)
  = imagist.Return None
  /\ exists img codec,
       imagist.disk (imagist.imageProcess examples.smallWorld examples.dev ∅
                       "photo.jpg" 50 200 false examples.thumb)
       = [imagist.Created ("photo.jpg" +:+ ":" +:+ "thumb");
          imagist.Encoded ("photo.jpg" +:+ ":" +:+ "thumb") img codec].
Proof.
  assert (Hret : imagist.ret
                   (imagist.imageProcess examples.smallWorld examples.dev ∅
                      "photo.jpg" 50 200 false examples.thumb)
                 = imagist.Return None) by reflexivity.
  split; [exact Hret|].
  exact (proj1 (proj1 (imageProcess_nil_iff_encoded examples.smallWorld
                         examples.dev ∅ "photo.jpg" 50 200 false
                         examples.thumb)) Hret).
Defined.


Lemma execute_only_normalizes_witness :
  examples.heapWith examples.odd !! 1%positive = Some examples.odd
  /\ imagist.heapAfter
       (imagist.execute examples.stockedWorld examples.dev
          (examples.heapWith examples.odd)
          (examples.largeJob [examples.banner])) !! 1%positive
     = Some (imagist.mkWatermarkPosition imagist.Left imagist.Top 3 4)
  /\ imagist.OffsetX (imagist.mkWatermarkPosition imagist.Left imagist.Top 3 4)
     = imagist.OffsetX examples.odd.
Proof.
  assert (Hbefore : examples.heapWith examples.odd !! 1%positive
                    = Some examples.odd) by reflexivity.
  assert (Hafter : imagist.heapAfter
                     (imagist.execute examples.stockedWorld examples.dev
                        (examples.heapWith examples.odd)
                        (examples.largeJob [examples.banner])) !! 1%positive
                   = Some (imagist.mkWatermarkPosition
                             imagist.Left imagist.Top 3 4)) by reflexivity.
  split; [exact Hbefore|]. split; [exact Hafter|].
  exact (proj1 (proj2 (execute_only_normalizes examples.stockedWorld
                         examples.dev (examples.heapWith examples.odd)
                         (examples.largeJob [examples.banner]) 1%positive)
                 examples.odd
                 (imagist.mkWatermarkPosition imagist.Left imagist.Top 3 4)
                 Hbefore Hafter)).
Defined.


Lemma execute_writes_variants_witness :
  imagist.Created "photo.jpg:thumb"
  ∈ imagist.written (imagist.execute examples.smallWorld examples.dev ∅
                       (examples.smallJob [examples.thumb]))
  /\ imagist.effectPath (imagist.Created "photo.jpg:thumb") <> "photo.jpg".
Proof.
  assert (Hin : imagist.Created "photo.jpg:thumb"
                ∈ imagist.written
                    (imagist.execute examples.smallWorld examples.dev ∅
                       (examples.smallJob [examples.thumb])))
    by (apply elem_of_cons; left; reflexivity).
  split; [exact Hin|].
  exact (proj2 (execute_writes_variants examples.smallWorld examples.dev ∅
                  (examples.smallJob [examples.thumb])
                  (imagist.Created "photo.jpg:thumb") Hin)).
Defined.

Lemma execute_concat_witness :
  imagist.done (imagist.execute examples.smallWorld examples.dev ∅
                  (examples.smallJob [examples.thumb]))
  = Some "photo.jpg"
  /\ imagist.written
       (imagist.execute examples.smallWorld examples.dev ∅
          (examples.smallJob ([examples.thumb] ++ [examples.poster])))
     = imagist.written
         (imagist.execute examples.smallWorld examples.dev ∅
            (examples.smallJob [examples.thumb]))
       ++ imagist.written
            (imagist.execute examples.smallWorld examples.dev
               (imagist.heapAfter
                  (imagist.execute examples.smallWorld examples.dev ∅
                     (examples.smallJob [examples.thumb])))
               (examples.smallJob [examples.poster])).
Proof.
  assert (Hdone : imagist.done
                    (imagist.execute examples.smallWorld examples.dev ∅
                       (examples.smallJob [examples.thumb]))
                  = Some "photo.jpg") by reflexivity.
  split; [exact Hdone|].
  exact (f_equal imagist.written
           (execute_concat examples.smallWorld examples.dev ∅ "photo.jpg"
              examples.small (-1) (-1) [examples.thumb] [examples.poster]
              Hdone)).
Defined.

Lemma variant_size_witness :
  imaging.Bounds (imagist.fit_scaled examples.smallWorld)
    (imaging.Fill (examples.photo examples.small) 50 200
                  imaging.Center imaging.Lanczos)
  = imaging.box (Z.min 100 50) 200.
Proof.
  apply (variant_size examples.smallWorld examples.dev
           (examples.smallJob [examples.thumb]) ∅ examples.thumb
           (examples.photo examples.small))
    with (out := "photo.jpg:thumb") (codec := imaging.JPEG).
  - reflexivity.
  - in_range_now.
  - in_range_now.
  - in_range_now.
  - reflexivity.
  - reflexivity.
  - reflexivity.
  - intros back Hback. discriminate.
  - apply elem_of_cons. right. apply elem_of_cons. left. reflexivity.
Defined.

Lemma watermark_inside_witness :
  0 <= image.X (imagist.placeWatermark (image.Rect 0 0 200 100)
                  (image.Rect 0 0 20 10) examples.corner).1
  /\ image.X (imagist.placeWatermark (image.Rect 0 0 200 100)
                (image.Rect 0 0 20 10) examples.corner).1
     + image.Dx (image.Rect 0 0 20 10)
     <= image.Dx (image.Rect 0 0 200 100)
  /\ 0 <= image.Y (imagist.placeWatermark (image.Rect 0 0 200 100)
                     (image.Rect 0 0 20 10) examples.corner).1
  /\ image.Y (imagist.placeWatermark (image.Rect 0 0 200 100)
                (image.Rect 0 0 20 10) examples.corner).1
     + image.Dy (image.Rect 0 0 20 10)
     <= image.Dy (image.Rect 0 0 200 100).
Proof.
  apply (watermark_inside (image.Rect 0 0 200 100) (image.Rect 0 0 20 10)
           examples.corner).
  - reflexivity.
  - in_range_now.
  - in_range_now.
  - in_range_now.
  - in_range_now.
  - discriminate.
  - discriminate.
Defined.

Lemma inflight_exact_witness :
  imagist.reachable examples.smallWorld (imagist.New []) examples.admitted
  /\ size (imagist.jobs examples.admitted)
     = length (imagist.owned examples.admitted).
Proof.
  assert (Hreach : imagist.reachable examples.smallWorld (imagist.New [])
                     examples.admitted) by reach_admitted.
  split; [exact Hreach|].
  exact (proj2 (inflight_exact examples.smallWorld (imagist.New [])
                  examples.admitted Hreach)).
Defined.


Lemma only_validated_jobs_run_witness :
  imagist.reachable examples.smallWorld (imagist.New []) examples.admitted
  /\ examples.firstJob ∈ imagist.running examples.admitted
  /\ exists buf dimensions validate config imgType,
       imagist.Add examples.smallWorld buf
         (imagist.FileDiskPath examples.firstJob) dimensions validate
       = inr examples.firstJob
       /\ imagist.filetype_IsImage examples.smallWorld buf = true
       /\ imagist.image_DecodeConfig examples.smallWorld buf
          = Ok (config, imgType)
       /\ spec.accepted imgType
       /\ imagist.Config examples.firstJob = config.
Proof.
  assert (Hreach : imagist.reachable examples.smallWorld (imagist.New [])
                     examples.admitted) by reach_admitted.
  assert (Hrun : examples.firstJob ∈ imagist.running examples.admitted)
    by (apply elem_of_cons; left; reflexivity).
  split; [exact Hreach|]. split; [exact Hrun|].
  exact (only_validated_jobs_run examples.smallWorld (imagist.New [])
           examples.admitted examples.firstJob Hreach (or_intror Hrun)).
Defined.

Lemma key_released_on_completion_witness :
  imagist.reachable examples.smallWorld (imagist.New []) examples.finished
  /\ imagist.i_done examples.finished = ["photo.jpg"]
  /\ imagist.jobs
       (imagist.listenDone
          (imagist.mkState (imagist.jobs examples.finished)
             (imagist.running examples.finished)
             (imagist.i_jobs examples.finished) [])
          "photo.jpg") !! "photo.jpg"
     = None.
Proof.
  assert (Hreach : imagist.reachable examples.smallWorld (imagist.New [])
                     examples.finished) by reach_finished.
  assert (Hdone : imagist.i_done examples.finished = ["photo.jpg"])
    by reflexivity.
  split; [exact Hreach|]. split; [exact Hdone|].
  exact (proj1 (proj2 (key_released_on_completion examples.smallWorld
                         (imagist.New []) examples.finished "photo.jpg" []
                         Hreach Hdone))).
Defined.

Lemma presets_never_rewritten_witness :
  imagist.BottomRight ∈ imagist.presets
  /\ examples.heapWith imagist.BottomRight !! 1%positive
     = Some imagist.BottomRight
  /\ imagist.heapAfter
       (imagist.execute examples.stockedWorld examples.dev
          (examples.heapWith imagist.BottomRight)
          (examples.largeJob [examples.banner])) !! 1%positive
     = Some imagist.BottomRight.
Proof.
  assert (Hin : imagist.BottomRight ∈ imagist.presets).
  { unfold imagist.presets. do 4 (apply elem_of_cons; right).
    apply elem_of_cons. left. reflexivity. }
  assert (Hp : examples.heapWith imagist.BottomRight !! 1%positive
               = Some imagist.BottomRight) by reflexivity.
  split; [exact Hin|]. split; [exact Hp|].
  exact (presets_never_rewritten examples.stockedWorld examples.dev
           (examples.heapWith imagist.BottomRight)
           (examples.largeJob [examples.banner]) 1%positive
           imagist.BottomRight Hin Hp).
Defined.
